(** * s3-secrets: ordered concurrent fetch and secret dispatch

    A shallow embedding of [secrets/secrets.go]:

    - the sequential part ([Run], the three [get*] starters and the three
      [handle*] consumers) as functions in a trace/error/panic monad;
    - the concurrent part ([GetAll] and its chain of goroutines) as an
      executable small-step machine over goroutine program counters and
      channels, driven by an arbitrary schedule. *)

From Stdlib Require Import ZArith Strings.String Strings.Ascii Strings.Byte.
From Stdlib Require Import DecimalString.
From stdpp Require Import base numbers option list strings.

Local Open Scope Z_scope.
Local Open Scope nat_scope.

(** ** Go values used by the package *)

(** [error]: the two concrete error types the package creates or receives,
    [errors.errorString] and [fmt.wrapError] (made by [%w]). *)
Inductive error : Type :=
| errorString (s : string)
| wrapError (msg : string) (err : error).

(** [err.Error()]. *)
Definition Error (e : error) : string :=
  match e with
  | errorString s => s
  | wrapError msg _ => msg
  end.

(** [errors.Unwrap]. *)
Definition Unwrap (e : error) : option error :=
  match e with
  | errorString _ => None
  | wrapError _ err => Some err
  end.

(** Operands of the [fmt] verbs that occur in the package. *)
Inductive any : Type :=
| Str (s : string)
| Int (n : Z)
| Errv (e : error).

(** [type getResult struct { bucket, key string; data []byte; err error }] *)
Record getResult : Type := mkResult {
  bucket : string;
  key : string;
  data : list byte;
  err : option error
}.

(** [type Client interface]. *)
Record Client : Type := {
  Get : string -> string -> list byte * option error;
  BucketExists : string -> bool * option error
}.

(** What the run does to the outside world, in program order. *)
Inductive event : Type :=
| EvLog (line : string)                       (* Logger.Printf / Println *)
| EvBucketExists (b : string)                 (* Client.BucketExists *)
| EvGo (b : string) (keys : list string)      (* go GetAll(client, b, keys, ch) *)
| EvAdd (k : list byte)                       (* SSHAgent.Add *)
| EvWrite (p : list byte).                    (* EnvSink.Write *)

Definition trace := list event.

(** [type Agent interface]. The agent is a process with state of its own:
    what [Add] answers may depend on everything done so far. *)
Record Agent : Type := {
  Add : trace -> list byte -> option error;
  Pid : nat
}.

(** [io.Writer], as seen through [bytes.Reader.WriteTo] and
    [io.WriteString]: one [Write] of the whole payload, and the error. *)
Record Writer : Type := { Write : trace -> list byte -> option error }.

(** [type Config struct]; the [Logger] is the [EvLog] part of the trace. *)
Record Config : Type := {
  Repo : string;
  Bucket : string;
  Prefix : string;
  client : Client;
  SSHAgent : Agent;
  EnvSink : Writer;
  GitCredentialHelper : string
}.

(** ** Outcomes and the monad of the sequential code *)

Inductive outcome (A : Type) : Type :=
| Done (a : A)                (* normal completion / [return nil] *)
| Fail (e : error)            (* [return err] with a non-nil error *)
| Panic (msg : string).       (* run-time panic *)
Arguments Done {A} a.
Arguments Fail {A} e.
Arguments Panic {A} msg.

Definition M (A : Type) : Type := trace -> trace * outcome A.

#[global] Instance M_ret : MRet M := fun A a t => (t, Done a).
#[global] Instance M_bind : MBind M := fun A B f m t =>
  match m t with
  | (t', Done a) => f a t'
  | (t', Fail e) => (t', Fail e)
  | (t', Panic msg) => (t', Panic msg)
  end.

Definition fail {A} (e : error) : M A := fun t => (t, Fail e).
Definition panic {A} (msg : string) : M A := fun t => (t, Panic msg).
Definition emit (ev : event) : M unit := fun t => (t ++ [ev], Done tt).

(** ** fmt *)

Definition itoa (n : Z) : string := NilZero.string_of_int (Z.to_int n).

Section Fmt.

(** [strconv.Quote], the [%q] verb on strings; the Go library function is
    not part of the package. *)
Variable quote : string -> string.

Definition format_verb (v : ascii) (a : any) : string :=
  match a with
  | Str s =>
      if Ascii.eqb v "s" then s
      else if Ascii.eqb v "v" then s
      else if Ascii.eqb v "q" then quote s
      else "%!" +:+ String v "(string=" +:+ s +:+ ")"
  | Int n =>
      if Ascii.eqb v "d" then itoa n
      else if Ascii.eqb v "v" then itoa n
      else "%!" +:+ String v "(int=" +:+ itoa n +:+ ")"
  | Errv e =>
      if Ascii.eqb v "v" then Error e
      else if Ascii.eqb v "s" then Error e
      else if Ascii.eqb v "w" then Error e
      else if Ascii.eqb v "q" then quote (Error e)
      else "%!" +:+ String v "(error=" +:+ Error e +:+ ")"
  end.

(** [fmt.Sprintf] for the verbs above. *)
Fixpoint Sprintf (format : string) (args : list any) : string :=
  match format with
  | EmptyString => EmptyString
  | String ch rest =>
      if Ascii.eqb ch "%" then
        match rest with
        | EmptyString => "%!(NOVERB)"
        | String v rest' =>
            if Ascii.eqb v "%" then String "%" (Sprintf rest' args)
            else
              match args with
              | a :: args' => format_verb v a +:+ Sprintf rest' args'
              | [] => "%!" +:+ String v "(MISSING)" +:+ Sprintf rest' []
              end
        end
      else String ch (Sprintf rest args)
  end.

(** The operand of the first [%w], which [fmt.Errorf] wraps. *)
Fixpoint wrapped (format : string) (args : list any) : option error :=
  match format with
  | EmptyString => None
  | String ch rest =>
      if Ascii.eqb ch "%" then
        match rest with
        | EmptyString => None
        | String v rest' =>
            if Ascii.eqb v "%" then wrapped rest' args
            else
              match args with
              | a :: args' =>
                  match a with
                  | Errv e => if Ascii.eqb v "w" then Some e else wrapped rest' args'
                  | _ => wrapped rest' args'
                  end
              | [] => None
              end
        end
      else wrapped rest args
  end.

(** [fmt.Errorf]. *)
Definition Errorf (format : string) (args : list any) : error :=
  match wrapped format args with
  | Some e => wrapError (Sprintf format args) e
  | None => errorString (Sprintf format args)
  end.

(** [Logger.Printf] and [Logger.Println] on an error. *)
Definition Printf (format : string) (args : list any) : M unit :=
  emit (EvLog (Sprintf format args)).
Definition Println (e : error) : M unit := emit (EvLog (Error e)).

End Fmt.

(** [strings.HasPrefix] and [strings.Join]. *)
Definition HasPrefix (s pre : string) : bool := String.prefix pre s.

Fixpoint Join (elems : list string) (sep : string) : string :=
  match elems with
  | [] => EmptyString
  | [e] => e
  | e :: rest => e +:+ sep +:+ Join rest sep
  end.

(** [data[i]] on a byte slice with a Go [int] index: [None] is the
    index-out-of-range panic. *)
Definition index (data : list byte) (i : Z) : option byte :=
  if (i <? 0)%Z then None else data !! Z.to_nat i.

Definition len {A} (l : list A) : Z := Z.of_nat (length l).

Definition newline : byte := x0a.

(** The string ["\n"]. *)
Definition nl_string : string := String "010" EmptyString.

(** ** The sequential code: handlers and [Run] *)

Section Secrets.

Variable quote : string -> string.

Local Abbreviation Printf := (Printf quote).
Local Abbreviation Errorf := (Errorf quote).

(** [conf.SSHAgent.Add(key)] *)
Definition agent_add (conf : Config) (k : list byte) : M (option error) :=
  fun t => (t ++ [EvAdd k], Done (Add (SSHAgent conf) t k)).

(** [bytes.NewReader(p).WriteTo(conf.EnvSink)] and
    [io.WriteString(conf.EnvSink, s)]: the error they return. *)
Definition sink_write (conf : Config) (p : list byte) : M (option error) :=
  fun t => (t ++ [EvWrite p], Done (Write (EnvSink conf) t p)).

(** [conf.Client.BucketExists(bucket)] *)
Definition bucket_exists (conf : Config) (b : string) : M (bool * option error) :=
  fun t => (t ++ [EvBucketExists b], Done (BucketExists (client conf) b)).

(** The result the goroutine of [GetAll] builds for key [k] (line 230). *)
Definition result_of (c : Client) (b k : string) : getResult :=
  let '(d, e) := Get c b k in
  {| bucket := b; key := k; data := d; err := e |}.

(** What a reader of the [results] channel of [GetAll c b keys] receives
    before the channel is closed, as proved of the chain of goroutines
    below. *)
Definition GetAll_stream (c : Client) (b : string) (keys : list string)
  : list getResult :=
  map (result_of c b) keys.

(** [for _, k := range keys { conf.Logger.Printf("- %s", k) }] *)
Fixpoint log_keys (keys : list string) : M unit :=
  match keys with
  | [] => mret tt
  | k :: rest => Printf "- %s" [Str k];; log_keys rest
  end.

(** [go GetAll(conf.Client, conf.Bucket, keys, results)]; the value is the
    channel, as the sequence it will deliver. *)
Definition go_GetAll (conf : Config) (keys : list string) : M (list getResult) :=
  emit (EvGo (Bucket conf) keys);;
  mret (GetAll_stream (client conf) (Bucket conf) keys).

(** The [keys] of [getSSHKeys], [getEnvs] and [getGitCredentials]. *)
Definition keysSSH (conf : Config) : list string :=
  [ Prefix conf +:+ "/private_ssh_key";
    Prefix conf +:+ "/id_rsa_github";
    "private_ssh_key";
    "id_rsa_github" ].

Definition keysEnv (conf : Config) : list string :=
  [ "env";
    "environment";
    Prefix conf +:+ "/env";
    Prefix conf +:+ "/environment" ].

Definition keysGit (conf : Config) : list string :=
  [ "git-credentials";
    Prefix conf +:+ "/git-credentials" ].

Definition getSSHKeys (conf : Config) : M (list getResult) :=
  let keys := keysSSH conf in
  Printf "Checking S3 for SSH keys:" [];;
  log_keys keys;;
  go_GetAll conf keys.

Definition getEnvs (conf : Config) : M (list getResult) :=
  let keys := keysEnv conf in
  Printf "Checking S3 for environment files:" [];;
  log_keys keys;;
  go_GetAll conf keys.

Definition getGitCredentials (conf : Config) : M (list getResult) :=
  let keys := keysGit conf in
  Printf "Checking S3 for git credentials:" [];;
  log_keys keys;;
  go_GetAll conf keys.

(** The [for r := range results] loop of [handleSSHKeys]; the value is
    [keyFound] when the channel is drained. *)
Fixpoint handleSSHKeys_range (conf : Config) (results : list getResult)
    (keyFound : bool) : M bool :=
  match results with
  | [] => mret keyFound
  | r :: rest =>
      match err r with
      | Some e =>
          Printf "+++ :warning: Failed to download ssh-key %s/%s: %v"
            [Str (bucket r); Str (key r); Errv e];;
          handleSSHKeys_range conf rest keyFound
      | None =>
          Printf "Loading %s/%s (%d bytes) into ssh-agent (pid %d)"
            [Str (bucket r); Str (key r); Int (len (data r));
             Int (Z.of_nat (Pid (SSHAgent conf)))];;
          e ← agent_add conf (data r);
          match e with
          | Some e => fail (Errorf "ssh-agent add: %w" [Errv e])
          | None => handleSSHKeys_range conf rest true
          end
      end
  end.

Definition handleSSHKeys (conf : Config) (results : list getResult) : M unit :=
  keyFound ← handleSSHKeys_range conf results false;
  if negb keyFound && HasPrefix (Repo conf) "git@" then
    Printf "+++ :warning: Failed to find an SSH key in secret bucket" [];;
    Printf "The repository %q appears to use SSH for transport, but the elastic-ci-stack-s3-secrets-hooks plugin did not find any SSH keys in the %q S3 bucket."
      [Str (Repo conf); Str (Bucket conf)];;
    Printf "See https://github.com/buildkite/elastic-ci-stack-for-aws#build-secrets for more information." []
  else mret tt.

(** Lines 166-169: [data := r.data; if data[len(data)-1] != '\n' {...}]. *)
Definition ensure_newline (d : list byte) : M (list byte) :=
  match index d (len d - 1) with
  | None => panic "runtime error: index out of range [-1]"
  | Some b => if Byte.eqb b newline then mret d else mret (d ++ [newline])
  end.

Fixpoint handleEnvs (conf : Config) (results : list getResult) : M unit :=
  match results with
  | [] => mret tt
  | r :: rest =>
      match err r with
      | Some e =>
          Printf "+++ :warning: Failed to download env from %s/%s: %v"
            [Str (bucket r); Str (key r); Errv e];;
          handleEnvs conf rest
      | None =>
          d ← ensure_newline (data r);
          Printf "Loading %s/%s (%d bytes) of env"
            [Str (bucket r); Str (key r); Int (len (data r))];;
          e ← sink_write conf d;
          match e with
          | Some e => fail (Errorf "copying env: %w" [Errv e])
          | None => handleEnvs conf rest
          end
      end
  end.

(** Lines 187-190: the descriptor appended to [helpers] for result [r]. *)
Definition credential_helper (conf : Config) (r : getResult) : string :=
  Sprintf quote "'credential.helper=%s %s %s'"
    [Str (GitCredentialHelper conf); Str (bucket r); Str (key r)].

(** The [for r := range results] loop of [handleGitCredentials]; the
    value is [helpers] when the channel is drained. *)
Fixpoint handleGitCredentials_range (conf : Config) (results : list getResult)
    (helpers : list string) : M (list string) :=
  match results with
  | [] => mret helpers
  | r :: rest =>
      match err r with
      | Some _ => handleGitCredentials_range conf rest helpers
      | None =>
          Printf "Adding git-credentials in %s/%s as a credential helper"
            [Str (bucket r); Str (key r)];;
          handleGitCredentials_range conf rest (helpers ++ [credential_helper conf r])
      end
  end.

Definition handleGitCredentials (conf : Config) (results : list getResult) : M unit :=
  helpers ← handleGitCredentials_range conf results [];
  if (len helpers =? 0)%Z then mret tt
  else
    let env := "GIT_CONFIG_PARAMETERS=" +:+ Join helpers " " +:+ nl_string in
    e ← sink_write conf (list_byte_of_string env);
    match e with
    | Some e => fail (Errorf "writing GIT_CONFIG_PARAMETERS env: %w" [Errv e])
    | None => mret tt
    end.

Definition Run (conf : Config) : M unit :=
  let bucket := Bucket conf in
  Printf "~~~ Downloading secrets from :s3: %s" [Str bucket];;
  '(ok, err) ← bucket_exists conf bucket;
  if negb ok then
    Printf "+++ :warning: Bucket %q doesn't exist" [Str bucket];;
    match err with
    | Some e => Println e
    | None => mret tt
    end;;
    fail (Errorf "bucket %q not found" [Str bucket])
  else
    resultsSSH ← getSSHKeys conf;
    resultsEnv ← getEnvs conf;
    resultsGit ← getGitCredentials conf;
    handleSSHKeys conf resultsSSH;;
    handleEnvs conf resultsEnv;;
    handleGitCredentials conf resultsGit.

End Secrets.

(** [strconv.Quote] on strings of printable ASCII without a double quote
    or a backslash: the string between double quotes. *)
Definition quote_plain (s : string) : string :=
  String "034" (s +:+ String "034" EmptyString).

(** The payloads written to [EnvSink], the keys given to [SSHAgent.Add],
    the [GetAll] pipelines started and the log lines, in order. *)
Definition writes (t : trace) : list (list byte) :=
  omap (fun ev => match ev with EvWrite p => Some p | _ => None end) t.

Definition adds (t : trace) : list (list byte) :=
  omap (fun ev => match ev with EvAdd k => Some k | _ => None end) t.

Definition pipelines (t : trace) : list (string * list string) :=
  omap (fun ev => match ev with EvGo b ks => Some (b, ks) | _ => None end) t.

Definition logged (t : trace) : list string :=
  omap (fun ev => match ev with EvLog l => Some l | _ => None end) t.

(** The [Get] calls the started pipelines make: one per key of each, as
    proved of the chain of goroutines below. *)
Definition get_calls (t : trace) : list (string * string) :=
  p ← pipelines t; pair p.1 <$> p.2.

(** ** [GetAll]: the chain of goroutines

    The goroutines of one call of [GetAll] and the channels between them,
    as a machine that a scheduler drives one thread at a time. The reader
    of [results] is a [for r := range results] loop: it is always ready to
    receive, so a send on [results] completes as soon as it is attempted
    and the value joins [delivered]. *)

(** The values of type [chan<- getResult] that travel through the links. *)
Inductive chanref : Type :=
| NilChan            (* zero value, received from a closed empty channel *)
| ResultsChan.       (* the [results] parameter *)

(** A link channel: [make(chan chan<- getResult, ch_cap)]. *)
Record chan : Type := mkChan {
  ch_cap : nat;
  ch_buf : list chanref;
  ch_closed : bool
}.

(** Where a goroutine of lines 227-233 stands. *)
Inductive gpc : Type :=
| GGet                                        (* 228: data, err := c.Get(bucket, k) *)
| GRecv (d : list byte) (e : option error)    (* 229: results := <-link *)
| GSend (results : chanref) (r : getResult)   (* 230: results <- getResult{...} *)
| GPass (results : chanref)                   (* 231: nextLink <- results *)
| GClose                                      (* 232: close(nextLink) *)
| GExit.

(** A goroutine with the arguments of its closure. *)
Record goroutine : Type := mkGo {
  g_k : string;
  g_link : nat;
  g_nextLink : nat;
  g_pc : gpc
}.

(** Where the body of [GetAll] stands; [link] is its local variable. *)
Inductive mpc : Type :=
| MSeed                                       (* 218: link <- results *)
| MCloseSeed                                  (* 219: close(link) *)
| MRange (link : nat) (rest : list string)    (* 221-236; [<-link] of 237 when [rest] is empty *)
| MCloseResults (results : chanref)           (* 237: close(...) *)
| MReturn.

Record system : Type := mkSys {
  main : mpc;
  gos : list goroutine;            (* in the order they were started *)
  chans : list chan;               (* the link channels, in the order they were made *)
  delivered : list getResult;      (* received from [results] so far *)
  closed : bool;                   (* [results] has been closed *)
  gets : list (string * string)    (* the calls [c.Get(bucket, key)] so far *)
}.

Inductive tid : Type :=
| Main
| Go (i : nat).

Inductive step_result : Type :=
| Next (s : system)
| Wait                     (* blocked, or finished *)
| Crash (msg : string).    (* panic *)

Definition set_main (m : mpc) (s : system) : system :=
  mkSys m (gos s) (chans s) (delivered s) (closed s) (gets s).
Definition set_gos (gs : list goroutine) (s : system) : system :=
  mkSys (main s) gs (chans s) (delivered s) (closed s) (gets s).
Definition set_chans (cs : list chan) (s : system) : system :=
  mkSys (main s) (gos s) cs (delivered s) (closed s) (gets s).
Definition set_pc (pc : gpc) (g : goroutine) : goroutine :=
  mkGo (g_k g) (g_link g) (g_nextLink g) pc.

(** The first goroutine blocked in a send on link [c], with its index (from
    [i]) and the value it sends. *)
Fixpoint sender (c : nat) (gs : list goroutine) (i : nat) : option (nat * chanref) :=
  match gs with
  | [] => None
  | g :: gs' =>
      match g_pc g with
      | GPass v => if g_nextLink g =? c then Some (i, v) else sender c gs' (S i)
      | _ => sender c gs' (S i)
      end
  end.

(** [<-link] on link [c]: a buffered value first; else a hand-off from a
    blocked sender, which moves on to its [close]; else the zero value if
    the channel is closed; else the receiver blocks ([None]). *)
Definition recv (c : nat) (s : system) : option (chanref * system) :=
  match chans s !! c with
  | None => None
  | Some ch =>
      match ch_buf ch with
      | v :: buf =>
          Some (v, set_chans (<[c := mkChan (ch_cap ch) buf (ch_closed ch)]> (chans s)) s)
      | [] =>
          match sender c (gos s) 0 with
          | Some (i, v) =>
              match gos s !! i with
              | Some g => Some (v, set_gos (<[i := set_pc GClose g]> (gos s)) s)
              | None => None
              end
          | None => if ch_closed ch then Some (NilChan, s) else None
          end
      end
  end.

(** [close(link)] on link [c]. *)
Definition close_link (c : nat) (s : system) : option system :=
  match chans s !! c with
  | None => None
  | Some ch =>
      if ch_closed ch then None
      else Some (set_chans (<[c := mkChan (ch_cap ch) (ch_buf ch) true]> (chans s)) s)
  end.

Section GetAll.

Variable c : Client.
Variable bucket : string.
Variable keys : list string.

(** Line 217 done: [link := make(chan chan<- getResult, 1)]. *)
Definition init : system :=
  mkSys MSeed [] [mkChan 1 [] false] [] false [].

Definition step_main (s : system) : step_result :=
  match main s with
  | MSeed =>
      match chans s !! 0 with
      | None => Wait
      | Some ch =>
          if ch_closed ch then Crash "send on closed channel"
          else if length (ch_buf ch) <? ch_cap ch then
            Next (set_main MCloseSeed
                   (set_chans (<[0 := mkChan (ch_cap ch) (ch_buf ch ++ [ResultsChan])
                                        (ch_closed ch)]> (chans s)) s))
          else Wait
      end
  | MCloseSeed =>
      match close_link 0 s with
      | Some s' => Next (set_main (MRange 0 keys) s')
      | None => Crash "close of closed channel"
      end
  | MRange link (k :: rest) =>
      let nextLink := length (chans s) in
      Next (mkSys (MRange nextLink rest)
              (gos s ++ [mkGo k link nextLink GGet])
              (chans s ++ [mkChan 0 [] false])
              (delivered s) (closed s) (gets s))
  | MRange link [] =>
      match recv link s with
      | Some (v, s') => Next (set_main (MCloseResults v) s')
      | None => Wait
      end
  | MCloseResults NilChan => Crash "close of nil channel"
  | MCloseResults ResultsChan =>
      if closed s then Crash "close of closed channel"
      else Next (mkSys MReturn (gos s) (chans s) (delivered s) true (gets s))
  | MReturn => Wait
  end.

Definition step_go (i : nat) (s : system) : step_result :=
  match gos s !! i with
  | None => Wait
  | Some g =>
      match g_pc g with
      | GGet =>
          let '(d, e) := Get c bucket (g_k g) in
          Next (mkSys (main s) (<[i := set_pc (GRecv d e) g]> (gos s)) (chans s)
                  (delivered s) (closed s) (gets s ++ [(bucket, g_k g)]))
      | GRecv d e =>
          match recv (g_link g) s with
          | Some (v, s') =>
              Next (set_gos (<[i := set_pc (GSend v (mkResult bucket (g_k g) d e)) g]>
                               (gos s')) s')
          | None => Wait
          end
      | GSend NilChan _ => Wait
      | GSend ResultsChan r =>
          if closed s then Crash "send on closed channel"
          else Next (mkSys (main s) (<[i := set_pc (GPass ResultsChan) g]> (gos s))
                       (chans s) (delivered s ++ [r]) (closed s) (gets s))
      | GPass _ =>
          match chans s !! g_nextLink g with
          | Some ch => if ch_closed ch then Crash "send on closed channel" else Wait
          | None => Wait
          end
      | GClose =>
          match close_link (g_nextLink g) s with
          | Some s' => Next (set_gos (<[i := set_pc GExit g]> (gos s')) s')
          | None => Crash "close of closed channel"
          end
      | GExit => Wait
      end
  end.

Definition step (t : tid) (s : system) : step_result :=
  match t with
  | Main => step_main s
  | Go i => step_go i s
  end.

(** Run a schedule; [None] when it names a thread that cannot move. *)
Fixpoint run (sch : list tid) (s : system) : option system :=
  match sch with
  | [] => Some s
  | t :: sch' =>
      match step t s with
      | Next s' => run sch' s'
      | _ => None
      end
  end.

Definition threads (s : system) : list tid :=
  Main :: map Go (seq 0 (length (gos s))).

Definition waits (t : tid) (s : system) : bool :=
  match step t s with
  | Wait => true
  | _ => false
  end.

(** No thread can move. *)
Definition halted (s : system) : bool :=
  forallb (fun t => waits t s) (threads s).

(** A scheduler: the first thread that can move, [fuel] times. *)
Fixpoint first_step (ts : list tid) (s : system) : option system :=
  match ts with
  | [] => None
  | t :: ts' =>
      match step t s with
      | Next s' => Some s'
      | _ => first_step ts' s
      end
  end.

Fixpoint drive (fuel : nat) (s : system) : system :=
  match fuel with
  | O => s
  | S fuel' =>
      match first_step (threads s) s with
      | Some s' => drive fuel' s'
      | None => s
      end
  end.

End GetAll.

(** ** Correctness of the chain *)

(** Where the [results] channel value (the baton) is. *)
Inductive baton : Type :=
| BSeed             (* in the buffer of the first link *)
| BHold (j : nat)   (* goroutine [j] received it and has not sent its result *)
| BPass (j : nat)   (* goroutine [j] sent its result and offers it on its [nextLink] *)
| BMain.            (* the body of [GetAll] received it *)

#[global] Instance baton_eq_dec : EqDecision baton.
Proof. solve_decision. Defined.

Definition before (b : baton) (i : nat) : Prop :=
  match b with
  | BSeed => True
  | BHold j | BPass j => j < i
  | BMain => False
  end.

Definition after (b : baton) (i : nat) : Prop :=
  match b with
  | BSeed => False
  | BHold j | BPass j => i < j
  | BMain => True
  end.

Definition seed_buf (b : baton) : list chanref :=
  match b with
  | BSeed => [ResultsChan]
  | _ => []
  end.

Definition is_exit (pc : gpc) : bool :=
  match pc with
  | GExit => true
  | _ => false
  end.

Definition fetched (g : goroutine) : bool :=
  match g_pc g with
  | GGet => false
  | _ => true
  end.

(** Steps a goroutine still has to take by itself. *)
Definition go_left (g : goroutine) : nat :=
  match g_pc g with
  | GGet => 4
  | GRecv _ _ => 3
  | GSend _ _ => 2
  | GPass _ => 1
  | GClose => 1
  | GExit => 0
  end.

Definition main_left (m : mpc) (n : nat) : nat :=
  match m with
  | MSeed => 5 * n + 4
  | MCloseSeed => 5 * n + 3
  | MRange _ rest => 5 * length rest + 2
  | MCloseResults _ => 1
  | MReturn => 0
  end.

Definition gos_left (gs : list goroutine) : nat := sum_list_with go_left gs.

Definition steps_left (n : nat) (s : system) : nat :=
  main_left (main s) n + gos_left (gos s).

Lemma sender_Some c gs i0 i v :
  sender c gs i0 = Some (i, v) →
  ∃ g, i0 ≤ i ∧ gs !! (i - i0) = Some g ∧ g_pc g = GPass v ∧ g_nextLink g = c.
Proof.
  revert i0. induction gs as [|g gs IH]; intros i0 H; simpl in H; [done|].
  assert (Hrec : sender c gs (S i0) = Some (i, v) →
    ∃ g0, i0 ≤ i ∧ (g :: gs) !! (i - i0) = Some g0 ∧ g_pc g0 = GPass v ∧ g_nextLink g0 = c).
  { intros H'. destruct (IH _ H') as (g0 & Hle & Hl & Hpc & Hn).
    exists g0. split; [lia|]. split; [|done].
    replace (i - i0) with (S (i - S i0)) by lia. done. }
  destruct (g_pc g) eqn:Hpc; try (by apply Hrec).
  destruct (g_nextLink g =? c) eqn:Hc; [|by apply Hrec].
  injection H as <- <-. exists g. rewrite Nat.sub_diag.
  apply Nat.eqb_eq in Hc. by rewrite Hpc.
Qed.

Lemma sender_None c gs i0 :
  sender c gs i0 = None →
  ∀ j g v, gs !! j = Some g → g_pc g = GPass v → g_nextLink g ≠ c.
Proof.
  revert i0. induction gs as [|g gs IH]; intros i0 H j g0 v Hl Hpc; [done|].
  simpl in H. destruct j as [|j]; simpl in Hl.
  - injection Hl as ->. rewrite Hpc in H.
    destruct (g_nextLink g0 =? c) eqn:Hc; [done|]. by apply Nat.eqb_neq.
  - destruct (g_pc g); try (by eapply IH);
      destruct (g_nextLink g =? c); try done; by eapply IH.
Qed.

Lemma gos_left_insert (gs : list goroutine) i g g' n n' :
  gs !! i = Some g → go_left g = n → go_left g' = n' →
  gos_left (<[i := g']> gs) + n = gos_left gs + n'.
Proof.
  intros H <- <-. unfold gos_left.
  revert i H. induction gs as [|g0 gs IH]; intros i H; [done|].
  destruct i as [|i]; simpl in *.
  - injection H as ->. lia.
  - specialize (IH _ H). lia.
Qed.

Lemma gos_left_snoc (gs : list goroutine) g :
  gos_left (gs ++ [g]) = gos_left gs + go_left g.
Proof. unfold gos_left. rewrite sum_list_with_app. simpl. lia. Qed.

Lemma filter_fetched_all (gs : list goroutine) :
  (∀ g, g ∈ gs → fetched g = true) → filter (λ g, fetched g = true) gs = gs.
Proof.
  induction gs as [|g gs IH]; intros H; [done|].
  rewrite filter_cons_True by (apply H; left).
  f_equal. apply IH. intros g' Hin. apply H. by right.
Qed.

Lemma fetched_insert_same (gs : list goroutine) i g g' :
  gs !! i = Some g → fetched g' = fetched g → g_k g' = g_k g →
  g_k <$> filter (λ x, fetched x = true) (<[i := g']> gs)
  = g_k <$> filter (λ x, fetched x = true) gs.
Proof.
  revert i. induction gs as [|g0 gs IH]; intros i H Hf Hk; [done|].
  destruct i as [|i]; simpl in H.
  - injection H as ->. change (<[0 := g']> (g :: gs)) with (g' :: gs).
    rewrite !filter_cons, Hf.
    destruct (decide (fetched g = true)); rewrite ?fmap_cons; by rewrite ?Hk.
  - change (<[S i := g']> (g0 :: gs)) with (g0 :: <[i := g']> gs).
    rewrite !filter_cons.
    destruct (decide (fetched g0 = true)); rewrite ?fmap_cons;
      by rewrite (IH _ H Hf Hk).
Qed.

Lemma fetched_insert_new (gs : list goroutine) i g g' :
  gs !! i = Some g → fetched g = false → fetched g' = true →
  g_k <$> filter (λ x, fetched x = true) (<[i := g']> gs)
  ≡ₚ (g_k <$> filter (λ x, fetched x = true) gs) ++ [g_k g'].
Proof.
  revert i. induction gs as [|g0 gs IH]; intros i H Hf Hf'; [done|].
  destruct i as [|i]; simpl in H.
  - injection H as ->. change (<[0 := g']> (g :: gs)) with (g' :: gs).
    rewrite !filter_cons, Hf, Hf'.
    destruct (decide (true = true)); [|done].
    destruct (decide (false = true)); [done|].
    rewrite fmap_cons. apply Permutation_cons_append.
  - change (<[S i := g']> (g0 :: gs)) with (g0 :: <[i := g']> gs).
    rewrite !filter_cons.
    destruct (decide (fetched g0 = true)); rewrite ?fmap_cons;
      by rewrite (IH _ H Hf Hf').
Qed.

Section Chain.

Variable c : Client.
Variable bucket : string.
Variable keys : list string.

(** Line 218 done. *)
Definition seeded : system :=
  mkSys MCloseSeed [] [mkChan 1 [ResultsChan] false] [] false [].

(** What goroutine [i], started for key [k], may be doing while the baton
    is at [b]. *)
Definition pc_ok (b : baton) (i : nat) (k : string) (pc : gpc) : Prop :=
  match pc with
  | GGet => before b i
  | GRecv d e => Get c bucket k = (d, e) ∧ before b i
  | GSend v r => v = ResultsChan ∧ r = result_of c bucket k ∧ b = BHold i
  | GPass v => v = ResultsChan ∧ b = BPass i
  | GClose | GExit => after b i
  end.

Definition go_ok (b : baton) (i : nat) (g : goroutine) : Prop :=
  g_link g = i ∧ g_nextLink g = S i ∧ keys !! i = Some (g_k g)
  ∧ pc_ok b i (g_k g) (g_pc g).

(** How many results have been delivered while the baton is at [b]. *)
Definition baton_at (b : baton) : nat :=
  match b with
  | BSeed => 0
  | BHold j => j
  | BPass j => S j
  | BMain => length keys
  end.

Definition main_ok (b : baton) (s : system) : Prop :=
  match main s with
  | MSeed | MCloseSeed => False
  | MRange link rest =>
      link = length (gos s) ∧ rest = drop (length (gos s)) keys
      ∧ b ≠ BMain ∧ closed s = false
  | MCloseResults v =>
      v = ResultsChan ∧ b = BMain ∧ length (gos s) = length keys ∧ closed s = false
  | MReturn => b = BMain ∧ length (gos s) = length keys ∧ closed s = true
  end.

Record chain_inv (b : baton) (s : system) : Prop := {
  inv_gos : ∀ i g, gos s !! i = Some g → go_ok b i g;
  inv_len : length (chans s) = S (length (gos s));
  inv_ch0 : chans s !! 0 = Some (mkChan 1 (seed_buf b) true);
  inv_chs : ∀ i g, gos s !! i = Some g →
            chans s !! S i = Some (mkChan 0 [] (is_exit (g_pc g)));
  inv_out : delivered s = GetAll_stream c bucket (take (baton_at b) keys);
  inv_baton : match b with
              | BHold j | BPass j => j < length (gos s)
              | _ => True
              end;
  inv_main : main_ok b s;
  inv_gets : gets s ≡ₚ pair bucket <$> (g_k <$> filter (λ g, fetched g = true) (gos s))
}.

Definition Inv (s : system) : Prop :=
  s = init ∨ s = seeded ∨ ∃ b, chain_inv b s.

Lemma gos_le b s : chain_inv b s → length (gos s) ≤ length keys.
Proof.
  intros H. destruct (gos s) as [|g0 gs] eqn:E using rev_ind; [simpl; lia|].
  destruct (inv_gos _ _ H (length gs) g0) as (_ & _ & Hk & _).
  { rewrite E. by rewrite lookup_app_r, Nat.sub_diag by lia. }
  apply lookup_lt_Some in Hk. rewrite length_app; simpl. lia.
Qed.

Lemma gos_update b b' (gs : list goroutine) i g' :
  (∀ j x, gs !! j = Some x → go_ok b j x) →
  i < length gs →
  go_ok b' i g' →
  (∀ j x, j ≠ i → go_ok b j x → go_ok b' j x) →
  ∀ j x, <[i := g']> gs !! j = Some x → go_ok b' j x.
Proof.
  intros Hall Hi Hnew Hmono j x Hl.
  destruct (decide (j = i)) as [->|Hne].
  - rewrite list_lookup_insert_eq in Hl by done. by injection Hl as <-.
  - rewrite list_lookup_insert_ne in Hl by done. eauto.
Qed.

Lemma gos_update2 b b' (gs : list goroutine) i1 g1 i2 g2 :
  (∀ j x, gs !! j = Some x → go_ok b j x) →
  i1 < length gs → i2 < length gs →
  go_ok b' i1 g1 → go_ok b' i2 g2 →
  (∀ j x, j ≠ i1 → j ≠ i2 → go_ok b j x → go_ok b' j x) →
  ∀ j x, <[i2 := g2]> (<[i1 := g1]> gs) !! j = Some x → go_ok b' j x.
Proof.
  intros Hall H1 H2 Hnew1 Hnew2 Hmono j x Hl.
  destruct (decide (j = i2)) as [->|Hne2].
  { rewrite list_lookup_insert_eq in Hl by (by rewrite length_insert).
    by injection Hl as <-. }
  rewrite list_lookup_insert_ne in Hl by done.
  destruct (decide (j = i1)) as [->|Hne1].
  - rewrite list_lookup_insert_eq in Hl by done. by injection Hl as <-.
  - rewrite list_lookup_insert_ne in Hl by done. eauto.
Qed.

Lemma chs_update (cs : list chan) (gs : list goroutine) i g g' :
  (∀ j x, gs !! j = Some x → cs !! S j = Some (mkChan 0 [] (is_exit (g_pc x)))) →
  gs !! i = Some g → is_exit (g_pc g') = is_exit (g_pc g) →
  ∀ j x, <[i := g']> gs !! j = Some x →
         cs !! S j = Some (mkChan 0 [] (is_exit (g_pc x))).
Proof.
  intros Hall Hi Hex j x Hl.
  destruct (decide (j = i)) as [->|Hne].
  - rewrite list_lookup_insert_eq in Hl by (by eapply lookup_lt_Some).
    injection Hl as <-. rewrite Hex. eauto.
  - rewrite list_lookup_insert_ne in Hl by done. eauto.
Qed.

Definition step_ok (s : system) (r : step_result) : Prop :=
  match r with
  | Next s' => Inv s' ∧ steps_left (length keys) s = S (steps_left (length keys) s')
  | Wait => True
  | Crash _ => False
  end.

Lemma drop_cons_inv (l : list string) m k rest :
  k :: rest = drop m l → l !! m = Some k ∧ rest = drop (S m) l.
Proof.
  intros H. assert (Hk : l !! m = Some k).
  { replace m with (m + 0) by lia. rewrite <- lookup_drop, <- H. done. }
  split; [done|]. rewrite (drop_S _ _ _ Hk) in H. by injection H.
Qed.

Lemma step_main_spawn b s link k rest :
  chain_inv b s → main s = MRange link (k :: rest) →
  chain_inv b (mkSys (MRange (length (chans s)) rest)
                 (gos s ++ [mkGo k link (length (chans s)) GGet])
                 (chans s ++ [mkChan 0 [] false])
                 (delivered s) (closed s) (gets s)).
Proof.
  intros H Hm. pose proof (inv_main _ _ H) as Hmain.
  unfold main_ok in Hmain. rewrite Hm in Hmain.
  destruct Hmain as (-> & Hrest & Hb & Hcl).
  pose proof (inv_len _ _ H) as Hlen.
  constructor; simpl.
  - intros i g Hl. apply lookup_app_Some in Hl as [Hl|[Hge Hl]].
    + by apply (inv_gos _ _ H).
    + apply list_lookup_singleton_Some in Hl as [Hi <-].
      assert (i = length (gos s)) as -> by lia.
      unfold go_ok; simpl. rewrite Hlen. split_and!; try done.
      * by apply drop_cons_inv in Hrest as [? _].
      * pose proof (inv_baton _ _ H). destruct b; simpl; done.
  - rewrite !length_app; simpl. lia.
  - rewrite lookup_app_l by lia. apply (inv_ch0 _ _ H).
  - intros i g Hl. apply lookup_app_Some in Hl as [Hl|[Hge Hl]].
    + rewrite lookup_app_l by (apply lookup_lt_Some in Hl; lia).
      by apply (inv_chs _ _ H).
    + apply list_lookup_singleton_Some in Hl as [Hi <-].
      assert (i = length (gos s)) as -> by lia.
      rewrite lookup_app_r by lia. by replace (_ - _) with 0 by lia.
  - apply (inv_out _ _ H).
  - pose proof (inv_baton _ _ H). rewrite length_app; simpl. destruct b; lia.
  - unfold main_ok; simpl. rewrite length_app; simpl.
    apply drop_cons_inv in Hrest as [_ Hrest].
    replace (length (gos s) + 1) with (S (length (gos s))) by lia.
    split_and!; try done; lia.
  - rewrite filter_app, fmap_app, filter_cons; simpl.
    rewrite app_nil_r. apply (inv_gets _ _ H).
Qed.

Lemma holder_pc i g :
  go_ok (BPass i) i g → g_pc g = GPass ResultsChan.
Proof.
  intros (_ & _ & _ & Hpc). destruct (g_pc g); simpl in Hpc; try lia.
  - destruct Hpc as (_ & _ & ?). done.
  - destruct Hpc as [-> _]. done.
Qed.

Lemma recv_seed s :
  chain_inv BSeed s →
  recv 0 s = Some (ResultsChan, set_chans (<[0 := mkChan 1 [] true]> (chans s)) s).
Proof. intros H. unfold recv. by rewrite (inv_ch0 _ _ H). Qed.

Lemma recv_pass s i g :
  chain_inv (BPass i) s → gos s !! i = Some g →
  recv (S i) s = Some (ResultsChan, set_gos (<[i := set_pc GClose g]> (gos s)) s).
Proof.
  intros H Hg. unfold recv. rewrite (inv_chs _ _ H _ _ Hg). simpl.
  pose proof (holder_pc _ _ (inv_gos _ _ H _ _ Hg)) as Hpc.
  destruct (sender (S i) (gos s) 0) as [[j v]|] eqn:Hs.
  - apply sender_Some in Hs as (g' & _ & Hl & Hpc' & Hn).
    rewrite Nat.sub_0_r in Hl.
    destruct (inv_gos _ _ H _ _ Hl) as (_ & Hn' & _).
    assert (j = i) as -> by lia. rewrite Hg in Hl. injection Hl as <-.
    rewrite Hg. rewrite Hpc in Hpc'. by injection Hpc' as <-.
  - destruct (inv_gos _ _ H _ _ Hg) as (_ & Hn & _).
    by destruct (sender_None _ _ _ Hs _ _ _ Hg Hpc).
Qed.

Lemma recv_blocked b s i g :
  chain_inv b s → gos s !! i = Some g → ¬ after b i → b ≠ BPass i →
  recv (S i) s = None.
Proof.
  intros H Hg Haft Hb. unfold recv. rewrite (inv_chs _ _ H _ _ Hg). simpl.
  destruct (sender (S i) (gos s) 0) as [[j v]|] eqn:Hs.
  - apply sender_Some in Hs as (g' & _ & Hl & Hpc' & Hn).
    rewrite Nat.sub_0_r in Hl.
    destruct (inv_gos _ _ H _ _ Hl) as (_ & Hn' & _ & Hpc).
    assert (j = i) as -> by lia. rewrite Hpc' in Hpc. simpl in Hpc.
    by destruct Hpc.
  - destruct (inv_gos _ _ H _ _ Hg) as (_ & _ & _ & Hpc).
    destruct (g_pc g); simpl in *; done.
Qed.

Ltac go_mono :=
  let Hpc := fresh "Hpc" in
  intros ? x; intros; 
  match goal with H : go_ok _ _ x |- _ => destruct H as (? & ? & ? & Hpc) end;
  split_and!; try done;
  destruct (g_pc x); simpl in *; intuition (try congruence; try lia).

Lemma main_ok_gos b b' s gs m o q :
  main_ok b s → length gs = length (gos s) → b ≠ BMain → b' ≠ BMain →
  main_ok b' (mkSys (main s) gs m o (closed s) q).
Proof.
  unfold main_ok; simpl. intros H Hlen Hb Hb'. rewrite Hlen.
  destruct (main s); intuition congruence.
Qed.

Lemma main_ok_same b s gs m o q :
  main_ok b s → length gs = length (gos s) →
  main_ok b (mkSys (main s) gs m o (closed s) q).
Proof.
  unfold main_ok; simpl. intros H Hlen. rewrite Hlen. done.
Qed.

Lemma step_go_get b s i g d e :
  chain_inv b s → gos s !! i = Some g → g_pc g = GGet →
  Get c bucket (g_k g) = (d, e) →
  chain_inv b (mkSys (main s) (<[i := set_pc (GRecv d e) g]> (gos s)) (chans s)
                 (delivered s) (closed s) (gets s ++ [(bucket, g_k g)])).
Proof.
  intros H Hg Hpc Hget. pose proof (lookup_lt_Some _ _ _ Hg) as Hi.
  destruct (inv_gos _ _ H _ _ Hg) as (Hl & Hn & Hk & Hok). rewrite Hpc in Hok.
  constructor; simpl.
  - eapply gos_update; [apply (inv_gos _ _ H)|done| |done].
    split_and!; done.
  - rewrite length_insert. apply (inv_len _ _ H).
  - apply (inv_ch0 _ _ H).
  - eapply chs_update; [apply (inv_chs _ _ H)|done|]. by rewrite Hpc.
  - apply (inv_out _ _ H).
  - rewrite length_insert. apply (inv_baton _ _ H).
  - apply main_ok_same; [apply (inv_main _ _ H)|by rewrite length_insert].
  - rewrite (fetched_insert_new _ _ g) by (done || by unfold fetched; rewrite ?Hpc).
    rewrite fmap_app. simpl. by rewrite <- (inv_gets _ _ H).
Qed.

Lemma step_go_recv0 s g d e :
  chain_inv BSeed s → gos s !! 0 = Some g → g_pc g = GRecv d e →
  chain_inv (BHold 0)
    (mkSys (main s)
       (<[0 := set_pc (GSend ResultsChan (mkResult bucket (g_k g) d e)) g]> (gos s))
       (<[0 := mkChan 1 [] true]> (chans s))
       (delivered s) (closed s) (gets s)).
Proof.
  intros H Hg Hpc. pose proof (lookup_lt_Some _ _ _ Hg) as Hi.
  destruct (inv_gos _ _ H _ _ Hg) as (Hl & Hn & Hk & Hok). rewrite Hpc in Hok.
  destruct Hok as [Hget _].
  constructor; simpl.
  - eapply gos_update; [apply (inv_gos _ _ H)|done| |go_mono].
    split_and!; try done. simpl. unfold result_of. by rewrite Hget.
  - rewrite !length_insert. apply (inv_len _ _ H).
  - apply list_lookup_insert_eq. pose proof (inv_len _ _ H). lia.
  - intros j x Hj. rewrite list_lookup_insert_ne by done. revert j x Hj.
    eapply chs_update; [apply (inv_chs _ _ H)|done|]. by rewrite Hpc.
  - apply (inv_out _ _ H).
  - by rewrite length_insert.
  - apply (main_ok_gos BSeed);
      [apply (inv_main _ _ H)|by rewrite length_insert|done..].
  - rewrite (fetched_insert_same _ _ g) by (done || by unfold fetched; rewrite ?Hpc).
    apply (inv_gets _ _ H).
Qed.

Lemma step_go_send s i g r :
  chain_inv (BHold i) s → gos s !! i = Some g → g_pc g = GSend ResultsChan r →
  chain_inv (BPass i)
    (mkSys (main s) (<[i := set_pc (GPass ResultsChan) g]> (gos s)) (chans s)
       (delivered s ++ [r]) (closed s) (gets s)).
Proof.
  intros H Hg Hpc. pose proof (lookup_lt_Some _ _ _ Hg) as Hi.
  destruct (inv_gos _ _ H _ _ Hg) as (Hl & Hn & Hk & Hok). rewrite Hpc in Hok.
  destruct Hok as (_ & -> & _).
  constructor; simpl.
  - eapply gos_update; [apply (inv_gos _ _ H)|done| |go_mono].
    split_and!; done.
  - rewrite length_insert. apply (inv_len _ _ H).
  - apply (inv_ch0 _ _ H).
  - eapply chs_update; [apply (inv_chs _ _ H)|done|]. by rewrite Hpc.
  - rewrite (inv_out _ _ H). simpl. unfold GetAll_stream.
    rewrite (take_S_r _ _ _ Hk), map_app. done.
  - by rewrite length_insert.
  - apply (main_ok_gos (BHold i));
      [apply (inv_main _ _ H)|by rewrite length_insert|done..].
  - rewrite (fetched_insert_same _ _ g) by (done || by unfold fetched; rewrite ?Hpc).
    apply (inv_gets _ _ H).
Qed.

Lemma step_go_close b s i g :
  chain_inv b s → gos s !! i = Some g → g_pc g = GClose →
  chain_inv b
    (mkSys (main s) (<[i := set_pc GExit g]> (gos s))
       (<[S i := mkChan 0 [] true]> (chans s))
       (delivered s) (closed s) (gets s)).
Proof.
  intros H Hg Hpc. pose proof (lookup_lt_Some _ _ _ Hg) as Hi.
  destruct (inv_gos _ _ H _ _ Hg) as (Hl & Hn & Hk & Hok). rewrite Hpc in Hok.
  pose proof (inv_len _ _ H) as Hlen.
  constructor; simpl.
  - eapply gos_update; [apply (inv_gos _ _ H)|done| |done].
    split_and!; done.
  - rewrite !length_insert. done.
  - rewrite list_lookup_insert_ne by done. apply (inv_ch0 _ _ H).
  - intros j x Hj. destruct (decide (j = i)) as [->|Hne].
    + rewrite list_lookup_insert_eq in Hj by done. injection Hj as <-.
      rewrite list_lookup_insert_eq by lia. done.
    + rewrite list_lookup_insert_ne in Hj by done.
      rewrite list_lookup_insert_ne by lia. by apply (inv_chs _ _ H).
  - apply (inv_out _ _ H).
  - rewrite length_insert. apply (inv_baton _ _ H).
  - apply main_ok_same; [apply (inv_main _ _ H)|by rewrite length_insert].
  - rewrite (fetched_insert_same _ _ g) by (done || by unfold fetched; rewrite ?Hpc).
    apply (inv_gets _ _ H).
Qed.

Lemma step_go_recvS s i g g' d e :
  chain_inv (BPass i) s → gos s !! i = Some g → gos s !! S i = Some g' →
  g_pc g' = GRecv d e →
  chain_inv (BHold (S i))
    (mkSys (main s)
       (<[S i := set_pc (GSend ResultsChan (mkResult bucket (g_k g') d e)) g']>
          (<[i := set_pc GClose g]> (gos s)))
       (chans s) (delivered s) (closed s) (gets s)).
Proof.
  intros H Hg Hg' Hpc'. pose proof (lookup_lt_Some _ _ _ Hg') as Hi.
  pose proof (holder_pc _ _ (inv_gos _ _ H _ _ Hg)) as Hpc.
  destruct (inv_gos _ _ H _ _ Hg) as (Hl & Hn & Hk & _).
  destruct (inv_gos _ _ H _ _ Hg') as (Hl' & Hn' & Hk' & Hok'). rewrite Hpc' in Hok'.
  destruct Hok' as [Hget _].
  assert (Hmid : <[i := set_pc GClose g]> (gos s) !! S i = Some g').
  { by rewrite list_lookup_insert_ne by lia. }
  constructor; simpl.
  - eapply (gos_update2 (BPass i)); [apply (inv_gos _ _ H)|lia|lia| | |go_mono].
    + split_and!; try done. simpl. lia.
    + split_and!; try done. simpl. unfold result_of. by rewrite Hget.
  - rewrite !length_insert. apply (inv_len _ _ H).
  - apply (inv_ch0 _ _ H).
  - eapply chs_update; [|done|by rewrite Hpc'].
    eapply chs_update; [apply (inv_chs _ _ H)|done|by rewrite Hpc].
  - apply (inv_out _ _ H).
  - by rewrite !length_insert.
  - apply (main_ok_gos (BPass i));
      [apply (inv_main _ _ H)|by rewrite !length_insert|done..].
  - rewrite (fetched_insert_same _ _ g') by (done || by unfold fetched; rewrite ?Hpc').
    rewrite (fetched_insert_same _ _ g) by (done || by unfold fetched; rewrite ?Hpc).
    apply (inv_gets _ _ H).
Qed.

Lemma step_main_recv0 s link :
  chain_inv BSeed s → main s = MRange link [] → gos s = [] →
  chain_inv BMain
    (mkSys (MCloseResults ResultsChan) (gos s)
       (<[0 := mkChan 1 [] true]> (chans s))
       (delivered s) (closed s) (gets s)).
Proof.
  intros H Hm Hgos. pose proof (inv_main _ _ H) as Hmain.
  unfold main_ok in Hmain. rewrite Hm, Hgos in Hmain. simpl in Hmain.
  destruct Hmain as (_ & Hrest & _ & Hcl). rewrite drop_0 in Hrest.
  pose proof (inv_len _ _ H) as Hlen.
  constructor; simpl.
  - rewrite Hgos. intros i g Hl. done.
  - by rewrite length_insert.
  - apply list_lookup_insert_eq. lia.
  - rewrite Hgos. intros i g Hl. done.
  - rewrite (inv_out _ _ H). simpl. by rewrite <- Hrest.
  - done.
  - unfold main_ok; simpl. rewrite Hgos, <- Hrest. done.
  - apply (inv_gets _ _ H).
Qed.

Lemma step_main_recvS s link i g :
  chain_inv (BPass i) s → main s = MRange link [] → length (gos s) = S i →
  gos s !! i = Some g →
  chain_inv BMain
    (mkSys (MCloseResults ResultsChan) (<[i := set_pc GClose g]> (gos s))
       (chans s) (delivered s) (closed s) (gets s)).
Proof.
  intros H Hm Hlen Hg. pose proof (inv_main _ _ H) as Hmain.
  unfold main_ok in Hmain. rewrite Hm in Hmain.
  destruct Hmain as (_ & Hrest & _ & Hcl).
  pose proof (holder_pc _ _ (inv_gos _ _ H _ _ Hg)) as Hpc.
  destruct (inv_gos _ _ H _ _ Hg) as (Hl & Hn & Hk & _).
  assert (Hkeys : length keys = S i).
  { pose proof (gos_le _ _ H). symmetry in Hrest.
    apply drop_nil_inv in Hrest. lia. }
  constructor; simpl.
  - eapply (gos_update (BPass i)); [apply (inv_gos _ _ H)|lia| |].
    + split_and!; done.
    + intros j x Hne (? & ? & Hkj & Hx).
      pose proof (lookup_lt_Some _ _ _ Hkj). split_and!; try done.
      destruct (g_pc x); simpl in *; intuition (try congruence; try lia).
  - rewrite length_insert. apply (inv_len _ _ H).
  - apply (inv_ch0 _ _ H).
  - eapply chs_update; [apply (inv_chs _ _ H)|done|by rewrite Hpc].
  - rewrite (inv_out _ _ H). simpl. by rewrite <- Hkeys.
  - done.
  - unfold main_ok; simpl. rewrite length_insert. split_and!; try done. lia.
  - rewrite (fetched_insert_same _ _ g) by (done || by unfold fetched; rewrite ?Hpc).
    apply (inv_gets _ _ H).
Qed.

Lemma step_main_close s :
  chain_inv BMain s → main s = MCloseResults ResultsChan →
  chain_inv BMain
    (mkSys MReturn (gos s) (chans s) (delivered s) true (gets s)).
Proof.
  intros H Hm. pose proof (inv_main _ _ H) as Hmain.
  unfold main_ok in Hmain. rewrite Hm in Hmain.
  destruct Hmain as (_ & _ & Hlen & Hcl).
  constructor; simpl; try apply H.
  unfold main_ok; simpl. done.
Qed.

Ltac sys_simpl := unfold set_main, set_chans, set_gos; simpl.

Lemma Inv_chain b s : chain_inv b s → Inv s.
Proof. intros H. right; right. by exists b. Qed.

Lemma step_main_sound s : Inv s → step_ok s (step_main keys s).
Proof.
  intros [->|[->|[b H]]].
  - simpl. split; [by right; left|]. unfold steps_left; simpl. lia.
  - simpl. split; [|unfold steps_left; simpl; lia].
    apply (Inv_chain BSeed). constructor; simpl; done.
  - unfold step_main. pose proof (inv_main _ _ H) as Hmain. unfold main_ok in Hmain.
    destruct (main s) as [| |link [|k rest]|v|] eqn:Hm; try done.
    + destruct Hmain as (-> & Hrest & Hb & Hcl).
      destruct (gos s) as [|g0 gs0] eqn:Hgos using rev_ind.
      * assert (b = BSeed) as ->.
        { pose proof (inv_baton _ _ H) as Hbat. rewrite Hgos in Hbat.
          destruct b; simpl in Hbat; try done; lia. }
        simpl. rewrite (recv_seed _ H). sys_simpl. split.
        -- apply (Inv_chain BMain). eapply step_main_recv0; done.
        -- unfold steps_left; simpl. rewrite Hm. simpl. lia.
      * clear IHgs0. rewrite <- Hgos.
        assert (Hlen : length (gos s) = S (length gs0)).
        { rewrite Hgos, length_app. simpl. lia. }
        assert (Hg : gos s !! length gs0 = Some g0).
        { rewrite Hgos. by rewrite lookup_app_r, Nat.sub_diag by lia. }
        rewrite Hlen.
        destruct (decide (b = BPass (length gs0))) as [->|Hne].
        -- rewrite (recv_pass _ _ _ H Hg). sys_simpl. split.
           ++ apply (Inv_chain BMain). eapply step_main_recvS; done.
           ++ unfold steps_left; simpl. rewrite Hm. simpl.
              pose proof (holder_pc _ _ (inv_gos _ _ H _ _ Hg)) as Hpc.
              pose proof (gos_left_insert _ _ _ (set_pc GClose g0) 1 1 Hg) as Hsum.
              unfold go_left in Hsum. rewrite Hpc in Hsum.
              specialize (Hsum eq_refl eq_refl). lia.
        -- rewrite (recv_blocked _ _ _ _ H Hg); [done| |done].
           pose proof (inv_baton _ _ H) as Hbat.
           destruct b; simpl in *; try done; lia.
    + split; [eapply Inv_chain, step_main_spawn; done|].
      unfold steps_left; simpl. rewrite Hm, gos_left_snoc. unfold go_left; simpl. lia.
    + destruct Hmain as (-> & -> & Hlen & Hcl). rewrite Hcl. split.
      * apply (Inv_chain BMain). by apply step_main_close.
      * unfold steps_left; simpl. rewrite Hm. simpl. lia.
Qed.

Lemma gos_left_step (gs : list goroutine) i g pc n :
  gs !! i = Some g → go_left g = S n → go_left (set_pc pc g) = n →
  gos_left gs = S (gos_left (<[i := set_pc pc g]> gs)).
Proof.
  intros Hg H1 H2. pose proof (gos_left_insert _ _ _ (set_pc pc g) _ _ Hg H1 H2). lia.
Qed.

Ltac left_step Hg Hpc pc n :=
  let Hs := fresh "Hs" in
  pose proof (gos_left_step _ _ _ pc n Hg) as Hs;
  unfold go_left in Hs; simpl in Hs; rewrite Hpc in Hs;
  specialize (Hs eq_refl eq_refl);
  unfold steps_left; simpl; lia.

Lemma step_go_sound i s : Inv s → step_ok s (step_go c bucket i s).
Proof.
  intros [->|[->|[b H]]]; [done..|].
  unfold step_go. destruct (gos s !! i) as [g|] eqn:Hg; [|done].
  pose proof (inv_gos _ _ H _ _ Hg) as (Hl & Hn & Hk & Hok).
  pose proof (inv_main _ _ H) as Hmain. unfold main_ok in Hmain.
  destruct (g_pc g) as [|d e|v r|v| |] eqn:Hpc; simpl in Hok; try done.
  - (* c.Get *)
    destruct (Get c bucket (g_k g)) as [d e] eqn:Hget. split.
    + eapply Inv_chain, step_go_get; done.
    + left_step Hg Hpc (GRecv d e) 3.
  - (* <-link *)
    destruct Hok as [Hget Hbef]. rewrite Hl.
    destruct i as [|i].
    + assert (b = BSeed) as -> by (destruct b; simpl in Hbef; done || lia).
      rewrite (recv_seed _ H). sys_simpl. split.
      * eapply (Inv_chain (BHold 0)), step_go_recv0; done.
      * left_step Hg Hpc (GSend ResultsChan (mkResult bucket (g_k g) d e)) 2.
    + destruct (gos s !! i) as [g'|] eqn:Hg'.
      2:{ apply lookup_ge_None in Hg'. apply lookup_lt_Some in Hg. lia. }
      destruct (decide (b = BPass i)) as [->|Hne].
      * rewrite (recv_pass _ _ _ H Hg'). sys_simpl. split.
        -- eapply (Inv_chain (BHold (S i))), step_go_recvS; done.
        -- pose proof (holder_pc _ _ (inv_gos _ _ H _ _ Hg')) as Hpc'.
           assert (Hmid : <[i := set_pc GClose g']> (gos s) !! S i = Some g).
           { by rewrite list_lookup_insert_ne by lia. }
           pose proof (gos_left_insert _ _ _ (set_pc GClose g') 1 1 Hg') as Hsum.
           unfold go_left in Hsum. rewrite Hpc' in Hsum.
           specialize (Hsum eq_refl eq_refl).
           left_step Hmid Hpc (GSend ResultsChan (mkResult bucket (g_k g) d e)) 2.
      * rewrite (recv_blocked _ _ _ _ H Hg'); [done| |done].
        destruct b; simpl in *; try done; lia.
  - (* results <- getResult{...} *)
    destruct Hok as (-> & -> & ->).
    assert (Hcl : closed s = false).
    { destruct (main s); intuition congruence. }
    rewrite Hcl. split.
    + rewrite <- Hcl. eapply (Inv_chain (BPass i)), step_go_send; done.
    + left_step Hg Hpc (GPass ResultsChan) 1.
  - (* nextLink <- results *)
    rewrite Hn, (inv_chs _ _ H _ _ Hg), Hpc. done.
  - (* close(nextLink) *)
    unfold close_link. rewrite Hn, (inv_chs _ _ H _ _ Hg), Hpc. sys_simpl. split.
    + eapply Inv_chain, step_go_close; done.
    + left_step Hg Hpc GExit 0.
Qed.

Lemma step_sound t s : Inv s → step_ok s (step c bucket keys t s).
Proof.
  destruct t; [apply step_main_sound|apply step_go_sound].
Qed.

Lemma run_sound sch s s' :
  Inv s → run c bucket keys sch s = Some s' →
  Inv s' ∧ steps_left (length keys) s = length sch + steps_left (length keys) s'.
Proof.
  revert s. induction sch as [|t sch IH]; intros s H Hrun; simpl in Hrun.
  - by injection Hrun as <-.
  - pose proof (step_sound t s H) as Hstep.
    destruct (step c bucket keys t s) as [s1| |]; try done.
    destruct Hstep as [H1 Hleft]. destruct (IH _ H1 Hrun) as [H' Hleft'].
    split; [done|]. simpl. lia.
Qed.

(** *** Progress: the chain never deadlocks *)

Lemma gos_left_pos (gs : list goroutine) :
  gos_left gs ≠ 0 → ∃ i g, gs !! i = Some g ∧ go_left g ≠ 0.
Proof.
  unfold gos_left. induction gs as [|g gs IH]; simpl; [done|]. intros H.
  destruct (decide (go_left g = 0)) as [Hz|Hnz].
  - destruct IH as (i & g' & Hl & Hg'); [lia|]. by exists (S i), g'.
  - by exists 0, g.
Qed.

Lemma gos_left_zero (gs : list goroutine) i g :
  gos_left gs = 0 → gs !! i = Some g → g_pc g = GExit.
Proof.
  unfold gos_left. revert i. induction gs as [|g0 gs IH]; intros i H Hl; [done|].
  simpl in H. destruct i as [|i]; simpl in Hl.
  - injection Hl as ->. unfold go_left in H. destruct (g_pc g); simpl in H; done || lia.
  - eapply IH; [lia|done].
Qed.

Lemma thread_main s : Main ∈ threads s.
Proof. unfold threads. apply list_elem_of_here. Qed.

Lemma thread_go s i g : gos s !! i = Some g → Go i ∈ threads s.
Proof.
  intros H. unfold threads. apply list_elem_of_further.
  apply list_elem_of_fmap. exists i. split; [done|].
  apply list_elem_of_In, in_seq. apply lookup_lt_Some in H. lia.
Qed.

(** A goroutine that has not yet received the baton can move as soon as
    the baton waits on its link. *)
Lemma waiting_go_moves b s i g :
  chain_inv b s → gos s !! i = Some g → before b i →
  (i = 0 ∧ b = BSeed) ∨ (∃ j, i = S j ∧ b = BPass j) →
  ∃ s', step_go c bucket i s = Next s'.
Proof.
  intros H Hg Hbef Hb. unfold step_go. rewrite Hg.
  destruct (inv_gos _ _ H _ _ Hg) as (Hl & Hn & Hk & Hok).
  destruct (g_pc g) as [|d e|v r|v| |] eqn:Hpc; simpl in Hok.
  - destruct (Get c bucket (g_k g)); eauto.
  - rewrite Hl. destruct Hb as [[-> ->]|(j & -> & ->)].
    + rewrite (recv_seed _ H). eauto.
    + destruct (gos s !! j) as [g'|] eqn:Hg'.
      2:{ apply lookup_ge_None in Hg'. apply lookup_lt_Some in Hg. lia. }
      rewrite (recv_pass _ _ _ H Hg'). eauto.
  - destruct Hok as (_ & _ & ->). simpl in Hbef. lia.
  - destruct Hok as (_ & ->). simpl in Hbef. lia.
  - destruct b; simpl in *; done || lia.
  - destruct b; simpl in *; done || lia.
Qed.

Lemma progress s :
  Inv s → steps_left (length keys) s ≠ 0 →
  ∃ t s', t ∈ threads s ∧ step c bucket keys t s = Next s'.
Proof.
  intros [->|[->|[b H]]] Hleft.
  - exists Main. eexists. split; [apply thread_main|]. reflexivity.
  - exists Main. eexists. split; [apply thread_main|]. reflexivity.
  - pose proof (inv_main _ _ H) as Hmain. unfold main_ok in Hmain.
    pose proof (inv_baton _ _ H) as Hbat.
    destruct (main s) as [| |link [|k rest]|v|] eqn:Hm; try done.
    + (* all goroutines started; the baton is somewhere in the chain *)
      destruct Hmain as (-> & Hrest & Hb & Hcl).
      destruct b as [|j|j|]; [| | |done].
      * destruct (gos s) as [|g0 gs0] eqn:Hgos.
        -- exists Main. eexists. split; [apply thread_main|].
           simpl. unfold step_main. rewrite Hm. simpl.
           rewrite (recv_seed _ H). reflexivity.
        -- assert (Hg : gos s !! 0 = Some g0) by (by rewrite Hgos).
           destruct (waiting_go_moves _ _ _ _ H Hg) as [s' Hs']; [done|by left|].
           exists (Go 0), s'. split; [by eapply thread_go|done].
      * destruct (gos s !! j) as [g|] eqn:Hg.
        2:{ apply lookup_ge_None in Hg. lia. }
        destruct (inv_gos _ _ H _ _ Hg) as (Hl & Hn & Hk & Hok).
        assert (∃ s', step_go c bucket j s = Next s') as [s' Hs'].
        { unfold step_go. rewrite Hg.
          destruct (g_pc g) as [|d e|v r|v| |] eqn:Hpc; simpl in Hok; try lia.
          - destruct Hok as (-> & _ & _). rewrite Hcl. eauto.
          - by destruct Hok. }
        exists (Go j), s'. split; [by eapply thread_go|done].
      * destruct (gos s !! j) as [g|] eqn:Hg.
        2:{ apply lookup_ge_None in Hg. lia. }
        destruct (gos s !! S j) as [g'|] eqn:Hg'.
        -- destruct (waiting_go_moves _ _ _ _ H Hg') as [s' Hs'];
             [simpl; lia|right; by exists j|].
           exists (Go (S j)), s'. split; [by eapply thread_go|done].
        -- apply lookup_ge_None in Hg'.
           assert (Hlen : length (gos s) = S j) by lia.
           exists Main. eexists. split; [apply thread_main|].
           simpl. unfold step_main. rewrite Hm, Hlen.
           rewrite (recv_pass _ _ _ H Hg). reflexivity.
    + exists Main. eexists. split; [apply thread_main|].
      simpl. unfold step_main. rewrite Hm. reflexivity.
    + destruct Hmain as (-> & -> & Hlen & Hcl).
      exists Main. eexists. split; [apply thread_main|].
      simpl. unfold step_main. rewrite Hm, Hcl. reflexivity.
    + destruct Hmain as (-> & Hlen & Hcl).
      unfold steps_left in Hleft. rewrite Hm in Hleft. simpl in Hleft.
      destruct (gos_left_pos _ Hleft) as (i & g & Hg & Hgl).
      destruct (inv_gos _ _ H _ _ Hg) as (Hl & Hn & Hk & Hok).
      assert (∃ s', step_go c bucket i s = Next s') as [s' Hs'].
      { unfold step_go, close_link. rewrite Hg.
        unfold go_left in Hgl.
        destruct (g_pc g) as [|d e|v r|v| |] eqn:Hpc; simpl in Hok; try done.
        - by destruct Hok.
        - by destruct Hok as (_ & _ & ?).
        - by destruct Hok.
        - rewrite Hn, (inv_chs _ _ H _ _ Hg), Hpc. eauto. }
      exists (Go i), s'. split; [by eapply thread_go|done].
Qed.

(** *** Halted states *)

Lemma halted_left s :
  Inv s → halted c bucket keys s = true → steps_left (length keys) s = 0.
Proof.
  intros H Hh. destruct (decide (steps_left (length keys) s = 0)) as [|Hne]; [done|].
  destruct (progress _ H Hne) as (t & s' & Ht & Hs').
  unfold halted in Hh. rewrite forallb_forall in Hh.
  apply list_elem_of_In, Hh in Ht. unfold waits in Ht. by rewrite Hs' in Ht.
Qed.

Lemma left_halted s :
  steps_left (length keys) s = 0 → halted c bucket keys s = true.
Proof.
  intros Hz. unfold steps_left in Hz.
  assert (Hm : main s = MReturn).
  { destruct (main s) as [| |? rest| |]; simpl in Hz; try done; lia. }
  assert (Hg : gos_left (gos s) = 0) by lia.
  unfold halted. apply forallb_forall. intros t Ht.
  apply list_elem_of_In in Ht. unfold threads in Ht.
  apply elem_of_cons in Ht as [->|Ht]; unfold waits; simpl.
  - unfold step_main. by rewrite Hm.
  - apply list_elem_of_fmap in Ht as (i & -> & _). simpl. unfold step_go.
    destruct (gos s !! i) as [g|] eqn:Hl; [|done].
    by rewrite (gos_left_zero _ _ _ Hg Hl).
Qed.

Lemma keys_of_gos b s :
  chain_inv b s → g_k <$> gos s = take (length (gos s)) keys.
Proof.
  intros H. apply list_eq. intros i. rewrite list_lookup_fmap.
  destruct (gos s !! i) as [g|] eqn:Hg; simpl.
  - destruct (inv_gos _ _ H _ _ Hg) as (_ & _ & Hk & _).
    rewrite lookup_take_lt by (by eapply lookup_lt_Some). done.
  - apply lookup_ge_None in Hg. symmetry. apply lookup_ge_None.
    rewrite length_take. lia.
Qed.

Lemma delivered_prefix s :
  Inv s → ∃ m, delivered s = GetAll_stream c bucket (take m keys).
Proof.
  intros [->|[->|[b H]]]; [by exists 0..|].
  exists (baton_at b). apply (inv_out _ _ H).
Qed.

Lemma closed_complete s :
  Inv s → closed s = true →
  delivered s = GetAll_stream c bucket keys ∧ main s = MReturn.
Proof.
  intros [->|[->|[b H]]] Hcl; [done..|].
  pose proof (inv_main _ _ H) as Hmain. unfold main_ok in Hmain.
  destruct (main s); try done; try (destruct Hmain as (_ & _ & _ & ?); congruence).
  destruct Hmain as (-> & _ & _). rewrite (inv_out _ _ H). simpl.
  by rewrite firstn_all.
Qed.

Lemma final_state s :
  Inv s → steps_left (length keys) s = 0 →
  delivered s = GetAll_stream c bucket keys ∧ closed s = true
  ∧ gets s ≡ₚ pair bucket <$> keys.
Proof.
  intros [->|[->|[b H]]] Hz; [unfold steps_left in Hz; simpl in Hz; lia..|].
  unfold steps_left in Hz.
  assert (Hm : main s = MReturn).
  { destruct (main s) as [| |? rest| |]; simpl in Hz; try done; lia. }
  assert (Hg : gos_left (gos s) = 0) by lia.
  pose proof (inv_main _ _ H) as Hmain. unfold main_ok in Hmain. rewrite Hm in Hmain.
  destruct Hmain as (-> & Hlen & Hcl).
  split_and!; [|done|].
  - rewrite (inv_out _ _ H). simpl. by rewrite firstn_all.
  - rewrite (inv_gets _ _ H).
    assert (Hall : filter (λ g, fetched g = true) (gos s) = gos s).
    { apply filter_fetched_all. intros g Hin.
      apply list_elem_of_lookup in Hin as [i Hi].
      unfold fetched. by rewrite (gos_left_zero _ _ _ Hg Hi). }
    rewrite Hall, (keys_of_gos _ _ H), Hlen, firstn_all. done.
Qed.

Lemma gets_sub s : Inv s → gets s ⊆+ pair bucket <$> keys.
Proof.
  intros [->|[->|[b H]]]; [apply submseteq_nil_l..|].
  rewrite (inv_gets _ _ H). apply sublist_submseteq, fmap_sublist.
  transitivity (g_k <$> gos s).
  - apply fmap_sublist, sublist_filter.
  - rewrite (keys_of_gos _ _ H). apply sublist_take.
Qed.

Lemma no_crash t s msg : Inv s → step c bucket keys t s ≠ Crash msg.
Proof.
  intros H Hc. pose proof (step_sound t s H) as Hs. by rewrite Hc in Hs.
Qed.

(** *** Every run can be completed, in a fixed number of steps *)

Lemma completion s :
  Inv s →
  ∃ sch s', run c bucket keys sch s = Some s'
            ∧ halted c bucket keys s' = true
            ∧ length sch = steps_left (length keys) s.
Proof.
  remember (steps_left (length keys) s) as n eqn:Hn.
  revert s Hn. induction n as [|n IH]; intros s Hn H.
  - exists [], s. split_and!; [done| |done]. by apply left_halted.
  - destruct (progress s H) as (t & s1 & _ & Hs1); [lia|].
    pose proof (step_sound t s H) as Hok. rewrite Hs1 in Hok.
    destruct Hok as [H1 Hl].
    destruct (IH s1) as (sch & s' & Hrun & Hh & Hlen); [lia|done|].
    exists (t :: sch), s'. split_and!; [|done|simpl; lia].
    simpl. by rewrite Hs1.
Qed.

Lemma first_step_sound ts s s' :
  Inv s → first_step c bucket keys ts s = Some s' →
  Inv s' ∧ steps_left (length keys) s = S (steps_left (length keys) s').
Proof.
  intros H. induction ts as [|t ts IH]; simpl; [done|].
  pose proof (step_sound t s H) as Hok.
  destruct (step c bucket keys t s) as [s1| |]; try done.
  intros [= <-]. done.
Qed.

Lemma first_step_progress s :
  Inv s → steps_left (length keys) s ≠ 0 →
  first_step c bucket keys (threads s) s ≠ None.
Proof.
  intros H Hne. destruct (progress s H Hne) as (t & s' & Ht & Hs').
  revert Ht. generalize (threads s) as ts.
  induction ts as [|t0 ts IH]; intros Ht; [by apply elem_of_nil in Ht|].
  simpl. apply elem_of_cons in Ht as [<-|Ht].
  - by rewrite Hs'.
  - destruct (step c bucket keys t0 s); try done; by apply IH.
Qed.

Lemma drive_halts fuel s :
  Inv s → steps_left (length keys) s ≤ fuel →
  Inv (drive c bucket keys fuel s)
  ∧ steps_left (length keys) (drive c bucket keys fuel s) = 0.
Proof.
  revert s. induction fuel as [|fuel IH]; intros s H Hle; cbn [drive].
  - split; [done|lia].
  - destruct (decide (steps_left (length keys) s = 0)) as [Hz|Hnz].
    + destruct (first_step c bucket keys (threads s) s) as [s1|] eqn:Hs1; [|done].
      destruct (first_step_sound _ _ _ H Hs1). lia.
    + pose proof (first_step_progress s H Hnz) as Hp.
      destruct (first_step c bucket keys (threads s) s) as [s1|] eqn:Hs1; [|done].
      destruct (first_step_sound _ _ _ H Hs1) as [H1 Hl].
      apply IH; [done|lia].
Qed.

End Chain.

(** ** Properties of [GetAll] *)

Lemma Inv_init c bucket keys : Inv c bucket keys init.
Proof. by left. Qed.

Lemma lookup_stream c b (keys : list string) m i r :
  GetAll_stream c b (take m keys) !! i = Some r →
  ∃ k, keys !! i = Some k ∧ r = result_of c b k.
Proof.
  unfold GetAll_stream. intros H.
  change (map (result_of c b) (take m keys)) with (result_of c b <$> take m keys) in H.
  rewrite list_lookup_fmap in H.
  destruct (take m keys !! i) as [k|] eqn:Hk; simpl in H; [|done].
  injection H as <-. exists k. split; [|done].
  apply lookup_take_Some in Hk as [Hk _]. done.
Qed.

(** C1. Whatever the schedule, each result delivered on [results] is the
    result for the key at the same position of [keys] (position [i] of the
    stream is the fetch result of key [i]); the channel is closed only after
    all of them; when no thread can move any more every key has its
    result, in order, and the channel is closed (with no key at all: closed
    and empty); no step panics; every run can be completed, and all
    complete runs take [5 * length keys + 4] steps, so the chain neither
    deadlocks nor runs forever; the first-enabled-thread scheduler gets
    there with that much fuel. *)
Theorem GetAll_ordered (c : Client) (bucket : string) (keys : list string)
    (sch : list tid) (s : system) :
  run c bucket keys sch init = Some s →
  (∀ i r, delivered s !! i = Some r →
          ∃ k, keys !! i = Some k ∧ r = result_of c bucket k)
  ∧ (closed s = true → delivered s = GetAll_stream c bucket keys)
  ∧ (halted c bucket keys s = true →
     delivered s = GetAll_stream c bucket keys ∧ closed s = true)
  ∧ (∀ t msg, step c bucket keys t s ≠ Crash msg)
  ∧ (∃ sch' s', run c bucket keys sch' s = Some s'
                ∧ halted c bucket keys s' = true
                ∧ length sch + length sch' = 5 * length keys + 4)
  ∧ (let s' := drive c bucket keys (5 * length keys + 4) init in
     halted c bucket keys s' = true
     ∧ delivered s' = GetAll_stream c bucket keys ∧ closed s' = true).
Proof.
  intros Hrun.
  destruct (run_sound c bucket keys sch init s (Inv_init _ _ _) Hrun) as [H Hleft].
  split_and!.
  - intros i r Hr. destruct (delivered_prefix _ _ _ _ H) as [m Hm].
    rewrite Hm in Hr. by eapply lookup_stream.
  - intros Hcl. by destruct (closed_complete _ _ _ _ H Hcl).
  - intros Hh. pose proof (halted_left _ _ _ _ H Hh) as Hz.
    by destruct (final_state _ _ _ _ H Hz) as (? & ? & _).
  - intros t msg. by apply no_crash.
  - destruct (completion _ _ _ _ H) as (sch' & s' & Hrun' & Hh & Hlen).
    exists sch', s'. split_and!; try done.
    rewrite Hlen. unfold steps_left in Hleft at 1. simpl in Hleft. lia.
  - destruct (drive_halts c bucket keys (5 * length keys + 4) init (Inv_init _ _ _))
      as [Hd Hz]; [unfold steps_left; simpl; lia|].
    cbv zeta. split; [by apply left_halted|].
    by destruct (final_state _ _ _ _ Hd Hz) as (? & ? & _).
Qed.

(** C9. Whatever the schedule and whatever [Get] answers, the calls made so
    far are calls for distinct positions of [keys] (never more than one per
    key), and when no thread can move any more they are exactly one call
    per key; such a state is always reached. *)
Theorem GetAll_gets_each_key_once (c : Client) (bucket : string)
    (keys : list string) (sch : list tid) (s : system) :
  run c bucket keys sch init = Some s →
  gets s ⊆+ pair bucket <$> keys
  ∧ (halted c bucket keys s = true → gets s ≡ₚ pair bucket <$> keys)
  ∧ (∃ sch' s', run c bucket keys sch' s = Some s'
                ∧ halted c bucket keys s' = true
                ∧ gets s' ≡ₚ pair bucket <$> keys).
Proof.
  intros Hrun.
  destruct (run_sound c bucket keys sch init s (Inv_init _ _ _) Hrun) as [H Hleft].
  split_and!.
  - by apply (gets_sub c).
  - intros Hh. pose proof (halted_left _ _ _ _ H Hh) as Hz.
    by destruct (final_state _ _ _ _ H Hz) as (_ & _ & ?).
  - destruct (completion _ _ _ _ H) as (sch' & s' & Hrun' & Hh & Hlen).
    exists sch', s'. split_and!; try done.
    destruct (run_sound _ _ _ _ _ _ H Hrun') as [H' _].
    pose proof (halted_left _ _ _ _ H' Hh) as Hz.
    by destruct (final_state _ _ _ _ H' Hz) as (_ & _ & ?).
Qed.

(** ** Properties of the handlers and of [Run] *)

Section SecretsFacts.

Variable quote : string -> string.

Lemma bind_run {A B} (m : M A) (f : A → M B) (t : trace) :
  (m ≫= f) t =
  match m t with
  | (t', Done a) => f a t'
  | (t', Fail e) => (t', Fail e)
  | (t', Panic msg) => (t', Panic msg)
  end.
Proof. reflexivity. Qed.

Lemma Printf_run format args (t : trace) :
  Printf quote format args t = (t ++ [EvLog (Sprintf quote format args)], Done tt).
Proof. reflexivity. Qed.

Lemma Printf_bind {B} format args (k : unit → M B) (t : trace) :
  (Printf quote format args ≫= k) t
  = k tt (t ++ [EvLog (Sprintf quote format args)]).
Proof. reflexivity. Qed.

Lemma append_nil_r (s : string) : s +:+ EmptyString = s.
Proof.
  induction s as [|a s IH]; [done|].
  change (String a (s +:+ EmptyString) = String a s). by rewrite IH.
Qed.

(** The three errors the handlers make with [%w]. *)
Lemma Errorf_ssh_agent_add e :
  Errorf quote "ssh-agent add: %w" [Errv e]
  = wrapError ("ssh-agent add: " +:+ Error e) e.
Proof.
  change (Errorf quote "ssh-agent add: %w" [Errv e])
    with (wrapError ("ssh-agent add: " +:+ (Error e +:+ EmptyString)) e).
  by rewrite append_nil_r.
Qed.

Lemma Errorf_copying_env e :
  Errorf quote "copying env: %w" [Errv e]
  = wrapError ("copying env: " +:+ Error e) e.
Proof.
  change (Errorf quote "copying env: %w" [Errv e])
    with (wrapError ("copying env: " +:+ (Error e +:+ EmptyString)) e).
  by rewrite append_nil_r.
Qed.

Lemma Errorf_writing_git e :
  Errorf quote "writing GIT_CONFIG_PARAMETERS env: %w" [Errv e]
  = wrapError ("writing GIT_CONFIG_PARAMETERS env: " +:+ Error e) e.
Proof.
  change (Errorf quote "writing GIT_CONFIG_PARAMETERS env: %w" [Errv e])
    with (wrapError ("writing GIT_CONFIG_PARAMETERS env: " +:+ (Error e +:+ EmptyString)) e).
  by rewrite append_nil_r.
Qed.

(** The warning [handleSSHKeys] logs for each failed lookup. *)
Definition ssh_warnings (results : list getResult) : trace :=
  omap (fun r => e ← err r;
                 Some (EvLog (Sprintf quote
                   "+++ :warning: Failed to download ssh-key %s/%s: %v"
                   [Str (bucket r); Str (key r); Errv e]))) results.

(** The three lines of the advisory of lines 148-153. *)
Definition ssh_advisory (conf : Config) : trace :=
  [ EvLog "+++ :warning: Failed to find an SSH key in secret bucket";
    EvLog ("The repository " +:+ quote (Repo conf) +:+
           " appears to use SSH for transport, but the elastic-ci-stack-s3-secrets-hooks plugin did not find any SSH keys in the "
           +:+ quote (Bucket conf) +:+ " S3 bucket.");
    EvLog "See https://github.com/buildkite/elastic-ci-stack-for-aws#build-secrets for more information." ].

Lemma ssh_warnings_cons r rest e :
  err r = Some e →
  ssh_warnings (r :: rest) =
  EvLog (Sprintf quote "+++ :warning: Failed to download ssh-key %s/%s: %v"
           [Str (bucket r); Str (key r); Errv e]) :: ssh_warnings rest.
Proof.
  intros He. unfold ssh_warnings. cbn [omap list_omap]. by rewrite He.
Qed.

Lemma handleSSHKeys_range_failures conf results kf t :
  Forall (fun r => err r ≠ None) results →
  handleSSHKeys_range quote conf results kf t = (t ++ ssh_warnings results, Done kf).
Proof.
  intros H. revert t. induction H as [|r rest Hr _ IH]; intros t.
  - cbn. by rewrite app_nil_r.
  - cbn [handleSSHKeys_range]. destruct (err r) as [e|] eqn:He; [|done].
    rewrite Printf_bind, IH, (ssh_warnings_cons _ _ _ He).
    by rewrite <- app_assoc.
Qed.

(** C8. When every lookup of the SSHKeys stream failed (so no key was
    registered), [handleSSHKeys] returns no error; after the per-lookup
    warnings it logs the three advisory lines exactly when the repository
    starts with [git@], and nothing otherwise; the agent and the sink are
    not touched. *)
Theorem handleSSHKeys_advisory (conf : Config) (results : list getResult) (t : trace) :
  Forall (fun r => err r ≠ None) results →
  handleSSHKeys quote conf results t =
    (t ++ ssh_warnings results
       ++ (if HasPrefix (Repo conf) "git@" then ssh_advisory conf else []),
     Done tt).
Proof.
  intros H. unfold handleSSHKeys.
  rewrite bind_run, (handleSSHKeys_range_failures _ _ _ _ H).
  cbn [negb andb]. destruct (HasPrefix (Repo conf) "git@").
  - rewrite !Printf_bind, Printf_run, <- !app_assoc. reflexivity.
  - by rewrite app_nil_r.
Qed.

(** *** Git credentials *)

(** The log line per successful result, and the descriptors built. *)
Definition git_logs (results : list getResult) : trace :=
  omap (fun r => match err r with
                 | None => Some (EvLog (Sprintf quote
                     "Adding git-credentials in %s/%s as a credential helper"
                     [Str (bucket r); Str (key r)]))
                 | Some _ => None
                 end) results.

Definition descriptors (conf : Config) (results : list getResult) : list string :=
  credential_helper quote conf <$> filter (fun r => err r = None) results.

Lemma handleGitCredentials_range_spec conf results helpers t :
  handleGitCredentials_range quote conf results helpers t
  = (t ++ git_logs results, Done (helpers ++ descriptors conf results)).
Proof.
  revert helpers t. induction results as [|r rest IH]; intros helpers t.
  - cbn. by rewrite !app_nil_r.
  - cbn [handleGitCredentials_range]. unfold descriptors, git_logs.
    cbn [omap list_omap]. rewrite filter_cons.
    destruct (err r) as [e|] eqn:He.
    + destruct (decide (Some e = None)); [done|]. apply IH.
    + destruct (decide (None = None)); [|done].
      rewrite Printf_bind, IH, fmap_cons, <- !app_assoc. reflexivity.
Qed.

Lemma writes_app t1 t2 : writes (t1 ++ t2) = writes t1 ++ writes t2.
Proof. apply omap_app. Qed.

Lemma adds_app t1 t2 : adds (t1 ++ t2) = adds t1 ++ adds t2.
Proof. apply omap_app. Qed.

Lemma pipelines_app t1 t2 : pipelines (t1 ++ t2) = pipelines t1 ++ pipelines t2.
Proof. apply omap_app. Qed.

Lemma writes_git_logs results : writes (git_logs results) = [].
Proof.
  unfold git_logs, writes. induction results as [|r rest IH]; [done|].
  cbn [omap list_omap]. destruct (err r); [done|]. cbn [omap list_omap]. done.
Qed.

Lemma append_assoc (s1 s2 s3 : string) : (s1 +:+ s2) +:+ s3 = s1 +:+ (s2 +:+ s3).
Proof.
  induction s1 as [|a s1 IH]; [done|].
  change (String a ((s1 +:+ s2) +:+ s3) = String a (s1 +:+ (s2 +:+ s3))).
  by rewrite IH.
Qed.

(** [strings.Join] spelled out: the first element, then every other
    element behind one separator. *)
Lemma Join_spelled (d : string) (ds : list string) (sep tail : string) :
  Join (d :: ds) sep +:+ tail = d +:+ foldr (fun x s => sep +:+ x +:+ s) tail ds.
Proof.
  revert d. induction ds as [|d' ds IH]; intros d; [done|].
  change (Join (d :: d' :: ds) sep) with (d +:+ sep +:+ Join (d' :: ds) sep).
  rewrite !append_assoc, IH. reflexivity.
Qed.

Lemma foldr_fmap_string {A} (f : A → string) (g : string → string → string)
    (tail : string) (l : list A) :
  foldr g tail (f <$> l) = foldr (fun x s => g (f x) s) tail l.
Proof. induction l as [|x l IH]; [done|]. cbn. by rewrite IH. Qed.

(** C5. [handleGitCredentials] logs one line per successful result and
    then: with no successful result it writes nothing and returns no
    error; with at least one it makes exactly one write to the sink, of
    the bytes of [GIT_CONFIG_PARAMETERS=], the descriptor of the first
    successful result, then, for every further successful result in stream
    order, one space and its descriptor, and last one newline character
    (code 10); the error of that write, if any, is returned wrapped. The
    line is written out here character by character, with no use of the
    functions that build it in the handler. *)
Theorem handleGitCredentials_one_line (conf : Config) (results : list getResult)
    (t : trace) :
  let descriptor := fun r =>
    "'credential.helper=" +:+ GitCredentialHelper conf +:+ " " +:+ bucket r
      +:+ " " +:+ key r +:+ "'" in
  let line := fun r found =>
    list_byte_of_string
      ("GIT_CONFIG_PARAMETERS=" +:+ descriptor r +:+
       foldr (fun r' tail => " " +:+ descriptor r' +:+ tail)
         (String "010" EmptyString) found) in
  let t1 := t ++ git_logs results in
  handleGitCredentials quote conf results t =
    match filter (fun r => err r = None) results with
    | [] => (t1, Done tt)
    | r :: found =>
        (t1 ++ [EvWrite (line r found)],
         match Write (EnvSink conf) t1 (line r found) with
         | None => Done tt
         | Some e => Fail (wrapError ("writing GIT_CONFIG_PARAMETERS env: " +:+ Error e) e)
         end)
    end
  ∧ writes (handleGitCredentials quote conf results t).1 =
    writes t ++ match filter (fun r => err r = None) results with
                | [] => []
                | r :: found => [line r found]
                end.
Proof.
  intros descriptor line t1.
  assert (Heq : handleGitCredentials quote conf results t =
    match filter (fun r => err r = None) results with
    | [] => (t1, Done tt)
    | r :: found =>
        (t1 ++ [EvWrite (line r found)],
         match Write (EnvSink conf) t1 (line r found) with
         | None => Done tt
         | Some e => Fail (wrapError ("writing GIT_CONFIG_PARAMETERS env: " +:+ Error e) e)
         end)
    end).
  { unfold handleGitCredentials.
    rewrite bind_run, handleGitCredentials_range_spec. cbn [app].
    fold t1. unfold descriptors.
    destruct (filter (fun r => err r = None) results) as [|r found]; [done|].
    rewrite fmap_cons.
    change ((len (credential_helper quote conf r
                  :: (credential_helper quote conf <$> found)) =? 0)%Z) with false.
    cbn match. rewrite bind_run. unfold sink_write.
    assert (Hline :
      list_byte_of_string
        ("GIT_CONFIG_PARAMETERS=" +:+
         Join (credential_helper quote conf r
               :: (credential_helper quote conf <$> found)) " " +:+ nl_string)
      = line r found).
    { unfold line. do 2 f_equal. rewrite Join_spelled, foldr_fmap_string.
      reflexivity. }
    rewrite Hline.
    destruct (Write (EnvSink conf) t1 (line r found)) as [e|]; [|reflexivity].
    by rewrite Errorf_writing_git. }
  split; [done|]. rewrite Heq. subst t1.
  destruct (filter (fun r => err r = None) results);
    cbn [fst]; rewrite ?writes_app, writes_git_logs, ?app_nil_r; done.
Qed.

(** C10. The descriptor built for a result is the helper path, the bucket
    and the key, as they are, separated by single spaces, after
    ['credential.helper=] and before a closing [']; whatever [%q] does
    plays no part, and these are the descriptors the handler collects. *)
Theorem credential_helper_verbatim (conf : Config) (r : getResult) :
  credential_helper quote conf r =
    "'credential.helper=" +:+ GitCredentialHelper conf +:+ " " +:+ bucket r
      +:+ " " +:+ key r +:+ "'"
  ∧ ∀ results t,
      (handleGitCredentials_range quote conf results [] t).2 =
      Done ((fun r => "'credential.helper=" +:+ GitCredentialHelper conf +:+ " "
                        +:+ bucket r +:+ " " +:+ key r +:+ "'")
              <$> filter (fun r => err r = None) results).
Proof.
  split; [reflexivity|]. intros results t.
  rewrite handleGitCredentials_range_spec. reflexivity.
Qed.

(** *** Environment files *)

Lemma index_last (d : list byte) :
  d ≠ [] → index d (len d - 1) = last d.
Proof.
  intros Hd. unfold index, len.
  destruct d as [|b d]; [done|].
  assert (Hge : (Z.of_nat (length (b :: d)) - 1 <? 0)%Z = false).
  { apply Z.ltb_ge. simpl length. lia. }
  rewrite Hge, last_lookup. f_equal. simpl length. lia.
Qed.

Lemma ensure_newline_nonempty (d : list byte) (t : trace) :
  d ≠ [] →
  ∃ b, last d = Some b
       ∧ ensure_newline d t
         = (t, Done (if Byte.eqb b newline then d else d ++ [newline])).
Proof.
  intros Hd. unfold ensure_newline. rewrite (index_last _ Hd).
  destruct (last d) as [b|] eqn:Hl.
  - exists b. split; [done|]. by destruct (Byte.eqb b newline).
  - by apply last_None in Hl.
Qed.



(** For a non-empty payload the handler writes the payload, with a
    newline added when its last byte is not one. *)
Lemma handleEnvs_writes_normalized conf r rest t :
  err r = None → data r ≠ [] →
  ∃ b, last (data r) = Some b ∧
    let d := if Byte.eqb b newline then data r else data r ++ [newline] in
    let t1 := t ++ [EvLog (Sprintf quote "Loading %s/%s (%d bytes) of env"
                             [Str (bucket r); Str (key r); Int (len (data r))])] in
    handleEnvs quote conf (r :: rest) t =
      match Write (EnvSink conf) t1 d with
      | Some e => (t1 ++ [EvWrite d], Fail (wrapError ("copying env: " +:+ Error e) e))
      | None => handleEnvs quote conf rest (t1 ++ [EvWrite d])
      end.
Proof.
  intros He Hd. destruct (ensure_newline_nonempty (data r) t Hd) as (b & Hl & Hn).
  exists b. split; [done|]. cbv zeta. cbn [handleEnvs].
  rewrite He, bind_run, Hn, Printf_bind, bind_run. unfold sink_write.
  destruct (Write (EnvSink conf) _ _) as [e|]; [|reflexivity].
  by rewrite Errorf_copying_env.
Qed.

(** *** SSH keys and [Run] *)

(** The line logged before a key is given to the agent. *)
Definition loading (conf : Config) (r : getResult) : event :=
  EvLog (Sprintf quote "Loading %s/%s (%d bytes) into ssh-agent (pid %d)"
           [Str (bucket r); Str (key r); Int (len (data r));
            Int (Z.of_nat (Pid (SSHAgent conf)))]).

Lemma handleSSHKeys_range_app conf pre rest kf t :
  handleSSHKeys_range quote conf (pre ++ rest) kf t
  = (handleSSHKeys_range quote conf pre kf
       ≫= fun kf1 => handleSSHKeys_range quote conf rest kf1) t.
Proof.
  revert kf t. induction pre as [|r pre IH]; intros kf t; [done|].
  cbn [app handleSSHKeys_range]. destruct (err r) as [e|].
  - rewrite Printf_bind, IH, !bind_run, Printf_run. reflexivity.
  - rewrite !bind_run, Printf_run. cbn match. rewrite !bind_run.
    unfold agent_add. cbn match.
    destruct (Add (SSHAgent conf) _ _); [done|]. by rewrite IH, bind_run.
Qed.

Lemma handleSSHKeys_range_writes conf results kf t :
  writes (handleSSHKeys_range quote conf results kf t).1 = writes t.
Proof.
  revert kf t. induction results as [|r rest IH]; intros kf t; [done|].
  cbn [handleSSHKeys_range]. destruct (err r) as [e|].
  - rewrite Printf_bind, IH, writes_app. cbn. by rewrite app_nil_r.
  - rewrite Printf_bind, bind_run. unfold agent_add.
    destruct (Add (SSHAgent conf) _ _).
    + cbn [fst fail]. rewrite !writes_app. cbn. by rewrite !app_nil_r.
    + rewrite IH, !writes_app. cbn. by rewrite !app_nil_r.
Qed.

(** [Run] up to the start of the three pipelines, when the bucket exists. *)
Definition start (conf : Config) : M unit :=
  Printf quote "~~~ Downloading secrets from :s3: %s" [Str (Bucket conf)];;
  bucket_exists conf (Bucket conf);;
  getSSHKeys quote conf;;
  getEnvs quote conf;;
  getGitCredentials quote conf;;
  mret tt.

Definition started (conf : Config) (t : trace) : trace := (start conf t).1.

(** The three handlers in the order of lines 77-85. *)
Definition handle_all (conf : Config) : M unit :=
  handleSSHKeys quote conf
    (GetAll_stream (client conf) (Bucket conf) (keysSSH conf));;
  handleEnvs quote conf
    (GetAll_stream (client conf) (Bucket conf) (keysEnv conf));;
  handleGitCredentials quote conf
    (GetAll_stream (client conf) (Bucket conf) (keysGit conf)).

Lemma Run_started conf t :
  (BucketExists (client conf) (Bucket conf)).1 = true →
  Run quote conf t = handle_all conf (started conf t).
Proof.
  intros Hok. unfold Run, started, start, handle_all.
  rewrite !Printf_bind, !bind_run. unfold bucket_exists.
  destruct (BucketExists (client conf) (Bucket conf)) as [ok e].
  simpl in Hok. subst ok. reflexivity.
Qed.

Lemma started_events conf t :
  ∃ evs, started conf t = t ++ evs ∧ writes evs = [] ∧ adds evs = []
         ∧ pipelines evs = [ (Bucket conf, keysSSH conf);
                             (Bucket conf, keysEnv conf);
                             (Bucket conf, keysGit conf) ].
Proof.
  eexists. split.
  - cbv [started start mbind M_bind mret M_ret getSSHKeys getEnvs getGitCredentials
         go_GetAll log_keys keysSSH keysEnv keysGit Printf emit bucket_exists fst].
    rewrite <- !app_assoc. cbn [app]. reflexivity.
  - split_and!; reflexivity.
Qed.

(** C7. When the agent answers with an error [e] to the [Add] of a
    successfully fetched SSH key [r] (the results before it having been
    handled without error), [handleSSHKeys] stops there and returns
    [ssh-agent add: ...] wrapping [e]; [Run] returns that same error with
    the trace ending at that [Add]: neither the environment files nor the
    git credentials are handled, and nothing is written to the sink. *)
Theorem Run_aborts_on_agent_error (conf : Config) (t : trace)
    (pre : list getResult) (r : getResult) (rest : list getResult)
    (t1 : trace) (kf1 : bool) (e : error) :
  (BucketExists (client conf) (Bucket conf)).1 = true →
  GetAll_stream (client conf) (Bucket conf) (keysSSH conf) = pre ++ r :: rest →
  handleSSHKeys_range quote conf pre false (started conf t) = (t1, Done kf1) →
  err r = None →
  Add (SSHAgent conf) (t1 ++ [loading conf r]) (data r) = Some e →
  let t' := t1 ++ [loading conf r; EvAdd (data r)] in
  let e' := wrapError ("ssh-agent add: " +:+ Error e) e in
  handleSSHKeys quote conf (pre ++ r :: rest) (started conf t) = (t', Fail e')
  ∧ Run quote conf t = (t', Fail e')
  ∧ writes t' = writes t.
Proof.
  intros Hok Hstream Hpre He Hadd t' e'.
  assert (Hssh : handleSSHKeys quote conf (pre ++ r :: rest) (started conf t)
                 = (t', Fail e')).
  { unfold handleSSHKeys. rewrite bind_run, handleSSHKeys_range_app, bind_run, Hpre.
    cbn [handleSSHKeys_range]. rewrite He, Printf_bind, bind_run.
    unfold agent_add. fold (loading conf r). rewrite Hadd.
    unfold fail. rewrite Errorf_ssh_agent_add, <- app_assoc. reflexivity. }
  split_and!; [done| |].
  - rewrite (Run_started _ _ Hok). unfold handle_all.
    rewrite bind_run, Hstream, Hssh. reflexivity.
  - subst t'. rewrite writes_app. cbn. rewrite app_nil_r.
    pose proof (handleSSHKeys_range_writes conf pre false (started conf t)) as Hw.
    rewrite Hpre in Hw. cbn [fst] in Hw. rewrite Hw.
    destruct (started_events conf t) as (evs & -> & Hwe & _).
    by rewrite writes_app, Hwe, app_nil_r.
Qed.

(** C2 (as the code has it). When [BucketExists] answers [false], with or
    without an error, [Run] logs the warning (and the error, if any) and
    returns [bucket <quoted name> not found]; no pipeline is started, so
    [Get] is not called, and neither the agent nor the sink is touched. *)
Theorem Run_bucket_not_found (conf : Config) (t : trace) :
  (BucketExists (client conf) (Bucket conf)).1 = false →
  let t' := t ++ [ EvLog ("~~~ Downloading secrets from :s3: " +:+ Bucket conf);
                   EvBucketExists (Bucket conf);
                   EvLog ("+++ :warning: Bucket " +:+ quote (Bucket conf)
                            +:+ " doesn't exist") ]
              ++ match (BucketExists (client conf) (Bucket conf)).2 with
                 | Some e => [EvLog (Error e)]
                 | None => []
                 end in
  Run quote conf t
    = (t', Fail (errorString ("bucket " +:+ quote (Bucket conf) +:+ " not found")))
  ∧ pipelines t' = pipelines t ∧ get_calls t' = get_calls t
  ∧ adds t' = adds t ∧ writes t' = writes t.
Proof.
  intros Hok t'. subst t'. unfold Run.
  rewrite Printf_bind, bind_run. unfold bucket_exists.
  destruct (BucketExists (client conf) (Bucket conf)) as [ok e].
  simpl in Hok. subst ok. cbn [negb snd].
  assert (Hp : ∀ l, pipelines (t ++ l) = pipelines t → get_calls (t ++ l) = get_calls t).
  { intros l Hl. unfold get_calls. by rewrite Hl. }
  destruct e as [e|].
  - split.
    + rewrite !Printf_bind, bind_run. unfold Println, emit, fail. cbn.
      rewrite append_nil_r, <- !app_assoc. reflexivity.
    + split_and!; try apply Hp; rewrite ?pipelines_app, ?adds_app, ?writes_app;
        cbn; by rewrite app_nil_r.
  - split.
    + rewrite !Printf_bind, bind_run. unfold fail, mret, M_ret. cbn.
      rewrite append_nil_r, <- !app_assoc. reflexivity.
    + split_and!; try apply Hp; rewrite ?pipelines_app, ?adds_app, ?writes_app;
        cbn; by rewrite app_nil_r.
Qed.

(** *** Failed lookups

    A result that carries an error changes nothing but the log, and the
    loop goes on with the rest of the stream: [handleSSHKeys] and
    [handleEnvs] log a warning for it, [handleGitCredentials] logs
    nothing. *)
Lemma failed_lookup_skipped conf r rest e t :
  err r = Some e →
  (∀ kf, handleSSHKeys_range quote conf (r :: rest) kf t
         = handleSSHKeys_range quote conf rest kf
             (t ++ [EvLog (Sprintf quote
                      "+++ :warning: Failed to download ssh-key %s/%s: %v"
                      [Str (bucket r); Str (key r); Errv e])]))
  ∧ handleEnvs quote conf (r :: rest) t
    = handleEnvs quote conf rest
        (t ++ [EvLog (Sprintf quote
                 "+++ :warning: Failed to download env from %s/%s: %v"
                 [Str (bucket r); Str (key r); Errv e])])
  ∧ (∀ helpers, handleGitCredentials_range quote conf (r :: rest) helpers t
                = handleGitCredentials_range quote conf rest helpers t).
Proof.
  intros He. split_and!.
  - intros kf. cbn [handleSSHKeys_range]. by rewrite He, Printf_bind.
  - cbn [handleEnvs]. by rewrite He, Printf_bind.
  - intros helpers. cbn [handleGitCredentials_range]. by rewrite He.
Qed.

End SecretsFacts.

(** ** Worked examples *)

Definition NotFound : error := errorString "NotFound".

(** Keys [a], [b], [c]: [a] is not found, [b] and [c] hold one byte. *)
Definition demo_client : Client :=
  {| Get := fun _ k =>
       if String.eqb k "a" then ([], Some NotFound)
       else if String.eqb k "b" then ([x42], None)
       else ([x43], None);
     BucketExists := fun _ => (true, None) |}.

Definition demo_keys : list string := ["a"; "b"; "c"].

(** All three goroutines are started; [b] and [c] are fetched before [a];
    then the baton goes down the chain. *)
Definition demo_schedule : list tid :=
  [ Main; Main; Main; Main; Main;
    Go 1; Go 2; Go 0;
    Go 0; Go 0; Go 1; Go 1; Go 2; Go 2;
    Main; Main;
    Go 0; Go 1; Go 2 ].

Definition demo_final : system :=
  Eval vm_compute in
    match run demo_client "bkt" demo_keys demo_schedule init with
    | Some s => s
    | None => init
    end.

Lemma GetAll_ordered_witness :
  delivered demo_final
  = [ mkResult "bkt" "a" [] (Some NotFound);
      mkResult "bkt" "b" [x42] None;
      mkResult "bkt" "c" [x43] None ]
  ∧ closed demo_final = true.
Proof.
  exact (proj1 (proj2 (proj2
           (GetAll_ordered demo_client "bkt" demo_keys demo_schedule demo_final
              eq_refl))) eq_refl).
Defined.

Lemma GetAll_gets_each_key_once_witness :
  gets demo_final ≡ₚ [("bkt", "a"); ("bkt", "b"); ("bkt", "c")].
Proof.
  exact (proj1 (proj2
           (GetAll_gets_each_key_once demo_client "bkt" demo_keys demo_schedule
              demo_final eq_refl)) eq_refl).
Defined.

(** A client for which no secret exists and an agent and a sink that
    accept everything. *)
Definition empty_client (exists_ : bool * option error) : Client :=
  {| Get := fun _ _ => ([], Some NotFound);
     BucketExists := fun _ => exists_ |}.

Definition ok_agent : Agent := {| Add := fun _ _ => None; Pid := 42 |}.
Definition ok_sink : Writer := {| Write := fun _ _ => None |}.

Definition demo_conf (repo bucket : string) (c : Client) (a : Agent) : Config :=
  {| Repo := repo; Bucket := bucket; Prefix := "pipe"; client := c;
     SSHAgent := a; EnvSink := ok_sink;
     GitCredentialHelper := "/usr/bin/git-credential-s3-secrets" |}.

Definition ssh_conf : Config :=
  demo_conf "git@github.com:org/repo.git" "bkt" (empty_client (true, None)) ok_agent.

Definition https_conf : Config :=
  demo_conf "https://github.com/org/repo.git" "bkt" (empty_client (true, None)) ok_agent.

Lemma handleSSHKeys_advisory_witness :
  logged (handleSSHKeys quote_plain ssh_conf
            (GetAll_stream (client ssh_conf) (Bucket ssh_conf) (keysSSH ssh_conf)) []).1
  = [ "+++ :warning: Failed to download ssh-key bkt/pipe/private_ssh_key: NotFound";
      "+++ :warning: Failed to download ssh-key bkt/pipe/id_rsa_github: NotFound";
      "+++ :warning: Failed to download ssh-key bkt/private_ssh_key: NotFound";
      "+++ :warning: Failed to download ssh-key bkt/id_rsa_github: NotFound";
      "+++ :warning: Failed to find an SSH key in secret bucket";
      "The repository " +:+ quote_plain "git@github.com:org/repo.git" +:+
      " appears to use SSH for transport, but the elastic-ci-stack-s3-secrets-hooks plugin did not find any SSH keys in the "
      +:+ quote_plain "bkt" +:+ " S3 bucket.";
      "See https://github.com/buildkite/elastic-ci-stack-for-aws#build-secrets for more information." ]
  ∧ logged (handleSSHKeys quote_plain https_conf
            (GetAll_stream (client https_conf) (Bucket https_conf) (keysSSH https_conf)) []).1
  = [ "+++ :warning: Failed to download ssh-key bkt/pipe/private_ssh_key: NotFound";
      "+++ :warning: Failed to download ssh-key bkt/pipe/id_rsa_github: NotFound";
      "+++ :warning: Failed to download ssh-key bkt/private_ssh_key: NotFound";
      "+++ :warning: Failed to download ssh-key bkt/id_rsa_github: NotFound" ].
Proof.
  assert (Hssh : Forall (fun r => err r ≠ None)
            (GetAll_stream (client ssh_conf) (Bucket ssh_conf) (keysSSH ssh_conf))).
  { simpl. repeat constructor; discriminate. }
  assert (Hhttps : Forall (fun r => err r ≠ None)
            (GetAll_stream (client https_conf) (Bucket https_conf) (keysSSH https_conf))).
  { simpl. repeat constructor; discriminate. }
  split.
  - rewrite (handleSSHKeys_advisory quote_plain ssh_conf _ [] Hssh). reflexivity.
  - rewrite (handleSSHKeys_advisory quote_plain https_conf _ [] Hhttps). reflexivity.
Defined.

(** Two git-credentials objects are found, with a failed lookup between
    them: one line, the two descriptors with one space between them, a
    newline (byte [0a]) at the end. *)
Lemma handleGitCredentials_one_line_witness :
  writes (handleGitCredentials quote_plain https_conf
            [ mkResult "bkt" "git-credentials" [x63] None;
              mkResult "bkt" "pipe/other" [] (Some NotFound);
              mkResult "bkt" "pipe/git-credentials" [x64] None ] []).1
  = [ list_byte_of_string
        "GIT_CONFIG_PARAMETERS='credential.helper=/usr/bin/git-credential-s3-secrets bkt git-credentials' 'credential.helper=/usr/bin/git-credential-s3-secrets bkt pipe/git-credentials'"
      ++ [x0a] ].
Proof.
  destruct (handleGitCredentials_one_line quote_plain https_conf
              [ mkResult "bkt" "git-credentials" [x63] None;
                mkResult "bkt" "pipe/other" [] (Some NotFound);
                mkResult "bkt" "pipe/git-credentials" [x64] None ] []) as [_ H].
  rewrite H. reflexivity.
Defined.

(** A key is found under [pipe/private_ssh_key], and the agent refuses it. *)
Definition one_key_client : Client :=
  {| Get := fun _ k =>
       if String.eqb k "pipe/private_ssh_key" then ([x6b; x65; x79], None)
       else ([], Some NotFound);
     BucketExists := fun _ => (true, None) |}.

Definition refusing_agent : Agent :=
  {| Add := fun _ _ => Some (errorString "agent refused operation"); Pid := 42 |}.

Definition refused_conf : Config :=
  demo_conf "git@github.com:org/repo.git" "bkt" one_key_client refusing_agent.

Lemma Run_aborts_on_agent_error_witness :
  (Run quote_plain refused_conf []).2
  = Fail (wrapError "ssh-agent add: agent refused operation"
            (errorString "agent refused operation"))
  ∧ adds (Run quote_plain refused_conf []).1 = [[x6b; x65; x79]]
  ∧ writes (Run quote_plain refused_conf []).1 = [].
Proof.
  pose proof (Run_aborts_on_agent_error quote_plain refused_conf []
                [] (mkResult "bkt" "pipe/private_ssh_key" [x6b; x65; x79] None)
                [ mkResult "bkt" "pipe/id_rsa_github" [] (Some NotFound);
                  mkResult "bkt" "private_ssh_key" [] (Some NotFound);
                  mkResult "bkt" "id_rsa_github" [] (Some NotFound) ]
                (started quote_plain refused_conf []) false
                (errorString "agent refused operation")
                eq_refl eq_refl eq_refl eq_refl eq_refl) as (_ & Hrun & Hw).
  rewrite Hrun. split_and!; reflexivity.
Defined.

(** The bucket does not exist. *)
Definition missing_conf : Config :=
  demo_conf "git@github.com:org/repo.git" "missing-bucket"
    (empty_client (false, None)) ok_agent.

Lemma Run_bucket_not_found_witness :
  (Run quote_plain missing_conf []).2
  = Fail (errorString ("bucket " +:+ quote_plain "missing-bucket" +:+ " not found"))
  ∧ get_calls (Run quote_plain missing_conf []).1 = [].
Proof.
  pose proof (Run_bucket_not_found quote_plain missing_conf [] eq_refl)
    as (Hrun & _ & Hg & _).
  rewrite Hrun. split; [reflexivity|exact Hg].
Defined.

(** The existence check answers [true] together with an error. *)
Definition erring_conf : Config :=
  demo_conf "https://github.com/org/repo.git" "bkt"
    (empty_client (true, Some (errorString "RequestTimeout"))) ok_agent.

(** C2, as stated, fails: the existence check returns an error, and [Run]
    neither returns [bucket ... not found] nor refrains from starting the
    pipelines: it starts all three (ten [Get] calls) and succeeds. *)
Lemma Run_proceeds_when_check_errs :
  (BucketExists (client erring_conf) (Bucket erring_conf)).2
    = Some (errorString "RequestTimeout")
  ∧ (Run quote_plain erring_conf []).2 = Done tt
  ∧ get_calls (Run quote_plain erring_conf []).1
    = [ ("bkt", "pipe/private_ssh_key"); ("bkt", "pipe/id_rsa_github");
        ("bkt", "private_ssh_key"); ("bkt", "id_rsa_github");
        ("bkt", "env"); ("bkt", "environment");
        ("bkt", "pipe/env"); ("bkt", "pipe/environment");
        ("bkt", "git-credentials"); ("bkt", "pipe/git-credentials") ].
Proof. split_and!; reflexivity. Qed.

(** C3 at the failing input: an environment file fetched successfully
    with an empty payload. The handler panics in the newline check; no
    newline is appended and nothing reaches the sink. *)
Theorem handleEnvs_empty_payload :
  handleEnvs quote_plain ssh_conf [mkResult "bkt" "env" [] None] []
  = ([], Panic "runtime error: index out of range [-1]")
  ∧ writes (handleEnvs quote_plain ssh_conf [mkResult "bkt" "env" [] None] []).1 = [].
Proof. split; reflexivity. Qed.

(** C6 at the failing input: a failed git-credentials lookup. The
    git-credentials handler logs nothing for it, where the other two
    handlers log their warning; all three go on without an error. *)
Theorem handleGitCredentials_failure_not_logged :
  let failed := mkResult "bkt" "git-credentials" [] (Some NotFound) in
  handleGitCredentials quote_plain https_conf [failed] [] = ([], Done tt)
  ∧ handleEnvs quote_plain https_conf [failed] []
    = ([EvLog "+++ :warning: Failed to download env from bkt/git-credentials: NotFound"],
       Done tt)
  ∧ handleSSHKeys quote_plain https_conf [failed] []
    = ([EvLog "+++ :warning: Failed to download ssh-key bkt/git-credentials: NotFound"],
       Done tt).
Proof. split_and!; reflexivity. Qed.

(** ** Which effects each part of [Run] can have *)

Section Effects.

Variable quote : string -> string.

(** [m] leaves the [proj]-part of the trace as it found it, however it
    ends. *)
Definition keeps {X A} (proj : event → option X) (m : M A) : Prop :=
  ∀ t, omap proj (m t).1 = omap proj t.

Lemma keeps_ret {X A} (proj : event → option X) (a : A) : keeps proj (mret a).
Proof. by intros t. Qed.

Lemma keeps_fail {X A} (proj : event → option X) e : keeps proj (@fail A e).
Proof. by intros t. Qed.

Lemma keeps_panic {X A} (proj : event → option X) msg : keeps proj (@panic A msg).
Proof. by intros t. Qed.

Lemma keeps_emit {X} (proj : event → option X) ev :
  proj ev = None → keeps proj (emit ev).
Proof.
  intros H t. unfold emit. cbn [fst]. rewrite omap_app. cbn [omap list_omap].
  by rewrite H, app_nil_r.
Qed.

Lemma keeps_bind {X A B} (proj : event → option X) (m : M A) (f : A → M B) :
  keeps proj m → (∀ a, keeps proj (f a)) → keeps proj (m ≫= f).
Proof.
  intros Hm Hf t. rewrite bind_run. specialize (Hm t).
  destruct (m t) as [t' [a|e|msg]]; cbn [fst] in *; [|done..].
  by rewrite Hf.
Qed.

Lemma keeps_Printf {X} (proj : event → option X) format args :
  (∀ l, proj (EvLog l) = None) → keeps proj (Printf quote format args).
Proof. intros H. by apply keeps_emit. Qed.

Lemma keeps_handleSSHKeys_range {X} (proj : event → option X) conf results kf :
  (∀ l, proj (EvLog l) = None) → (∀ k, proj (EvAdd k) = None) →
  keeps proj (handleSSHKeys_range quote conf results kf).
Proof.
  intros Hlog Hadd. revert kf. induction results as [|r rest IH]; intros kf.
  - apply keeps_ret.
  - cbn [handleSSHKeys_range]. destruct (err r) as [e|].
    + apply keeps_bind; [by apply keeps_Printf|]. intros _. apply IH.
    + apply keeps_bind; [by apply keeps_Printf|]. intros _.
      apply keeps_bind.
      * intros t. unfold agent_add. cbn [fst]. rewrite omap_app.
        cbn [omap list_omap]. by rewrite Hadd, app_nil_r.
      * intros [e|]; [apply keeps_fail|apply IH].
Qed.

Lemma keeps_handleSSHKeys {X} (proj : event → option X) conf results :
  (∀ l, proj (EvLog l) = None) → (∀ k, proj (EvAdd k) = None) →
  keeps proj (handleSSHKeys quote conf results).
Proof.
  intros Hlog Hadd. unfold handleSSHKeys.
  apply keeps_bind; [by apply keeps_handleSSHKeys_range|]. intros kf.
  destruct (negb kf && HasPrefix (Repo conf) "git@"); [|apply keeps_ret].
  repeat (apply keeps_bind; [by apply keeps_Printf|]; intros _).
  by apply keeps_Printf.
Qed.

Lemma keeps_handleEnvs {X} (proj : event → option X) conf results :
  (∀ l, proj (EvLog l) = None) → (∀ p, proj (EvWrite p) = None) →
  keeps proj (handleEnvs quote conf results).
Proof.
  intros Hlog Hw. induction results as [|r rest IH].
  - apply keeps_ret.
  - cbn [handleEnvs]. destruct (err r) as [e|].
    + apply keeps_bind; [by apply keeps_Printf|]. intros _. apply IH.
    + apply keeps_bind.
      { unfold ensure_newline. destruct (index _ _) as [b|]; [|apply keeps_panic].
        destruct (Byte.eqb b newline); apply keeps_ret. }
      intros d. apply keeps_bind; [by apply keeps_Printf|]. intros _.
      apply keeps_bind.
      * intros t. unfold sink_write. cbn [fst]. rewrite omap_app.
        cbn [omap list_omap]. by rewrite Hw, app_nil_r.
      * intros [e|]; [apply keeps_fail|apply IH].
Qed.

Lemma keeps_handleGitCredentials {X} (proj : event → option X) conf results :
  (∀ l, proj (EvLog l) = None) → (∀ p, proj (EvWrite p) = None) →
  keeps proj (handleGitCredentials quote conf results).
Proof.
  intros Hlog Hw. unfold handleGitCredentials. apply keeps_bind.
  - generalize (@nil string) as helpers.
    induction results as [|r rest IH]; intros helpers; [apply keeps_ret|].
    cbn [handleGitCredentials_range]. destruct (err r) as [e|]; [apply IH|].
    apply keeps_bind; [by apply keeps_Printf|]. intros _. apply IH.
  - intros helpers. destruct (len helpers =? 0)%Z; [apply keeps_ret|].
    apply keeps_bind.
    + intros t. unfold sink_write. cbn [fst]. rewrite omap_app.
      cbn [omap list_omap]. by rewrite Hw, app_nil_r.
    + intros [e|]; [apply keeps_fail|apply keeps_ret].
Qed.

(** The SSH handler never writes to the environment sink, the two sink
    writers never talk to the agent, and no handler starts a [GetAll]
    pipeline: this holds for every stream and however the handler ends
    (normally, with an error, or with a panic). *)
Theorem handlers_effects_apart (conf : Config) (results : list getResult) (t : trace) :
  writes (handleSSHKeys quote conf results t).1 = writes t
  ∧ adds (handleEnvs quote conf results t).1 = adds t
  ∧ adds (handleGitCredentials quote conf results t).1 = adds t
  ∧ pipelines (handleSSHKeys quote conf results t).1 = pipelines t
  ∧ pipelines (handleEnvs quote conf results t).1 = pipelines t
  ∧ pipelines (handleGitCredentials quote conf results t).1 = pipelines t.
Proof.
  split_and!.
  - by apply keeps_handleSSHKeys.
  - by apply keeps_handleEnvs.
  - by apply keeps_handleGitCredentials.
  - by apply keeps_handleSSHKeys.
  - by apply keeps_handleEnvs.
  - by apply keeps_handleGitCredentials.
Qed.



End Effects.

(** ** What the handlers and [Run] do with the secrets they find *)

(** [p] is the payload [d] made to end with a newline the way lines
    166-169 do it, for a non-empty [d]. *)
Inductive newline_ended (d : list byte) : list byte → Prop :=
| ended_already : last d = Some newline → newline_ended d d
| ended_added b : last d = Some b → b ≠ newline → newline_ended d (d ++ [newline]).

(** The successful results of a stream, in stream order. *)
Definition successes (results : list getResult) : list getResult :=
  filter (fun r => err r = None) results.


Lemma successes_cons_ok r rest :
  err r = None → successes (r :: rest) = r :: successes rest.
Proof. intros H. unfold successes. by rewrite filter_cons_True. Qed.

Lemma successes_cons_failed r rest e :
  err r = Some e → successes (r :: rest) = successes rest.
Proof.
  intros H. unfold successes. rewrite filter_cons_False; [done|]. by rewrite H.
Qed.

Section Dispatch.

Variable quote : string -> string.

(** What [handleSSHKeys] does for each result when the agent accepts the
    keys: a warning for a failed lookup, a log line and an [Add] for a
    key. *)
Definition ssh_events (conf : Config) (results : list getResult) : trace :=
  results ≫= fun r =>
    match err r with
    | Some e => [EvLog (Sprintf quote
                   "+++ :warning: Failed to download ssh-key %s/%s: %v"
                   [Str (bucket r); Str (key r); Errv e])]
    | None => [loading quote conf r; EvAdd (data r)]
    end.

Lemma handleSSHKeys_range_accepting conf results kf t :
  (∀ t' k, Add (SSHAgent conf) t' k = None) →
  handleSSHKeys_range quote conf results kf t
  = (t ++ ssh_events conf results,
     Done (match successes results with [] => kf | _ :: _ => true end)).
Proof.
  intros Hacc. revert kf t. induction results as [|r rest IH]; intros kf t.
  - cbn. by rewrite app_nil_r.
  - cbn [handleSSHKeys_range]. unfold ssh_events. rewrite bind_cons.
    fold (ssh_events conf rest). destruct (err r) as [e|] eqn:He.
    + rewrite Printf_bind, IH, (successes_cons_failed _ _ _ He), <- app_assoc.
      reflexivity.
    + rewrite Printf_bind, bind_run. unfold agent_add. rewrite Hacc.
      fold (loading quote conf r).
      rewrite IH, (successes_cons_ok _ _ He), <- !app_assoc. cbn [app].
      by destruct (successes rest).
Qed.

Lemma adds_ssh_events conf results :
  adds (ssh_events conf results) = data <$> successes results.
Proof.
  induction results as [|r rest IH]; [done|].
  unfold ssh_events. rewrite bind_cons. fold (ssh_events conf rest).
  rewrite adds_app, IH. destruct (err r) as [e|] eqn:He.
  - by rewrite (successes_cons_failed _ _ _ He).
  - by rewrite (successes_cons_ok _ _ He).
Qed.

Lemma handleSSHKeys_accepting conf results t :
  (∀ t' k, Add (SSHAgent conf) t' k = None) →
  handleSSHKeys quote conf results t
  = (t ++ ssh_events conf results
       ++ (match successes results with
           | [] => if HasPrefix (Repo conf) "git@"
                   then ssh_advisory quote conf else []
           | _ :: _ => []
           end),
     Done tt).
Proof.
  intros Hacc. unfold handleSSHKeys.
  rewrite bind_run, (handleSSHKeys_range_accepting _ _ _ _ Hacc).
  destruct (successes results); cbn [negb andb].
  - destruct (HasPrefix (Repo conf) "git@").
    + rewrite !Printf_bind, Printf_run, <- !app_assoc. reflexivity.
    + by rewrite app_nil_r.
  - by rewrite app_nil_r.
Qed.

Lemma handleSSHKeys_accepting_adds conf results t :
  (∀ t' k, Add (SSHAgent conf) t' k = None) →
  adds (handleSSHKeys quote conf results t).1
  = adds t ++ (data <$> successes results).
Proof.
  intros Hacc. rewrite (handleSSHKeys_accepting _ _ _ Hacc). cbn [fst].
  rewrite !adds_app, adds_ssh_events.
  f_equal. rewrite <- (app_nil_r (data <$> successes results)) at 2. f_equal.
  destruct (successes results); [|done].
  by destruct (HasPrefix (Repo conf) "git@").
Qed.

(** With an agent that accepts every key, [handleSSHKeys] gives the agent
    every key that was found, each exactly once and in stream order (all
    hits are used, not only the first), returns no error, and logs the
    advisory exactly when nothing was found and the repository starts with
    [git@]. *)
Theorem handleSSHKeys_adds_every_key (conf : Config) (results : list getResult)
    (t : trace) :
  (∀ t' k, Add (SSHAgent conf) t' k = None) →
  handleSSHKeys quote conf results t
  = (t ++ ssh_events conf results
       ++ (match successes results with
           | [] => if HasPrefix (Repo conf) "git@"
                   then ssh_advisory quote conf else []
           | _ :: _ => []
           end),
     Done tt)
  ∧ adds (handleSSHKeys quote conf results t).1
    = adds t ++ (data <$> successes results).
Proof.
  intros Hacc. split.
  - by apply handleSSHKeys_accepting.
  - by apply handleSSHKeys_accepting_adds.
Qed.

(** *** Environment files *)

(** The line logged before a payload is written. *)
Definition env_loading (r : getResult) : event :=
  EvLog (Sprintf quote "Loading %s/%s (%d bytes) of env"
           [Str (bucket r); Str (key r); Int (len (data r))]).

Lemma newline_ended_intro (d : list byte) b :
  last d = Some b →
  newline_ended d (if Byte.eqb b newline then d else d ++ [newline]).
Proof.
  intros Hl. destruct (Byte.eqb b newline) eqn:Hb.
  - apply Byte.byte_dec_bl in Hb. subst b. by apply ended_already.
  - apply Byte.eqb_false in Hb. by eapply ended_added.
Qed.

Lemma handleEnvs_app conf pre rest t :
  handleEnvs quote conf (pre ++ rest) t
  = (handleEnvs quote conf pre ≫= fun _ => handleEnvs quote conf rest) t.
Proof.
  revert t. induction pre as [|r pre IH]; intros t; [done|].
  cbn [app handleEnvs]. destruct (err r) as [e|].
  - rewrite Printf_bind, IH, !bind_run, Printf_run. reflexivity.
  - rewrite !bind_run. destruct (ensure_newline (data r) t) as [t' [d|e|msg]]; [|done..].
    rewrite !bind_run, Printf_run. cbn match. rewrite !bind_run.
    unfold sink_write. cbn match.
    destruct (Write (EnvSink conf) _ _); [done|]. by rewrite IH, bind_run.
Qed.



(** When the sink answers with an error [e] to the write of an environment
    file, that is, to the payload the handler makes of it (the results
    before it having been handled without error), [handleEnvs] returns
    [copying env: ...] wrapping [e] right after that write: the rest of
    the stream is not handled, and what was written before stays written.
    Nothing is asked of what the sink would answer to any other payload. *)
Theorem handleEnvs_write_error_fatal (conf : Config)
    (pre : list getResult) (r : getResult) (rest : list getResult)
    (t t1 : trace) (e : error) :
  handleEnvs quote conf pre t = (t1, Done tt) →
  err r = None → data r ≠ [] →
  (∀ p, newline_ended (data r) p →
        Write (EnvSink conf) (t1 ++ [env_loading r]) p = Some e) →
  ∃ p, newline_ended (data r) p
       ∧ handleEnvs quote conf (pre ++ r :: rest) t
         = (t1 ++ [env_loading r; EvWrite p],
            Fail (wrapError ("copying env: " +:+ Error e) e)).
Proof.
  intros Hpre He Hd Hw.
  destruct (handleEnvs_writes_normalized quote conf r rest t1 He Hd) as (b & Hl & Hstep).
  cbv zeta in Hstep. fold (env_loading r) in Hstep.
  rewrite (Hw _ (newline_ended_intro _ _ Hl)) in Hstep.
  eexists. split; [by apply newline_ended_intro|].
  rewrite handleEnvs_app, bind_run, Hpre, Hstep, <- app_assoc. reflexivity.
Qed.

(** *** Git credentials *)

(** The line of line 195. *)
Definition git_line (ds : list string) : list byte :=
  list_byte_of_string ("GIT_CONFIG_PARAMETERS=" +:+ Join ds " " +:+ nl_string).

Lemma handleGitCredentials_run conf results t :
  handleGitCredentials quote conf results t =
    match descriptors quote conf results with
    | [] => (t ++ git_logs quote results, Done tt)
    | d :: ds =>
        ((t ++ git_logs quote results) ++ [EvWrite (git_line (d :: ds))],
         match Write (EnvSink conf) (t ++ git_logs quote results) (git_line (d :: ds)) with
         | None => Done tt
         | Some e => Fail (wrapError ("writing GIT_CONFIG_PARAMETERS env: " +:+ Error e) e)
         end)
    end.
Proof.
  unfold handleGitCredentials.
  rewrite bind_run, handleGitCredentials_range_spec. cbn [app].
  destruct (descriptors quote conf results) as [|d ds]; [done|].
  change ((len (d :: ds) =? 0)%Z) with false. cbn match.
  rewrite bind_run. unfold sink_write. fold (git_line (d :: ds)).
  destruct (Write (EnvSink conf) _ _) as [e|]; [|reflexivity].
  by rewrite Errorf_writing_git.
Qed.


(** *** The whole run *)


(** *** How a run can end *)

(** [e] wraps, under [prefix], an error that the agent returned. *)
Definition agent_error (conf : Config) (e : error) : Prop :=
  ∃ t0 k e0, Add (SSHAgent conf) t0 k = Some e0
             ∧ e = wrapError ("ssh-agent add: " +:+ Error e0) e0.

(** [e] wraps, under [prefix], an error that the sink returned. *)
Definition sink_error (conf : Config) (prefix : string) (e : error) : Prop :=
  ∃ t0 p e0, Write (EnvSink conf) t0 p = Some e0
             ∧ e = wrapError (prefix +:+ Error e0) e0.

Lemma handleSSHKeys_range_outcome conf results kf t :
  match (handleSSHKeys_range quote conf results kf t).2 with
  | Done _ => True
  | Fail e => agent_error conf e
  | Panic _ => False
  end.
Proof.
  revert kf t. induction results as [|r rest IH]; intros kf t; [done|].
  cbn [handleSSHKeys_range]. destruct (err r) as [e|].
  - rewrite Printf_bind. apply IH.
  - rewrite Printf_bind, bind_run. unfold agent_add.
    destruct (Add (SSHAgent conf) _ _) as [e0|] eqn:Hadd; [|apply IH].
    unfold fail. cbn [snd]. rewrite Errorf_ssh_agent_add.
    by eexists _, _, e0.
Qed.

Lemma handleSSHKeys_outcome conf results t :
  match (handleSSHKeys quote conf results t).2 with
  | Done _ => True
  | Fail e => agent_error conf e
  | Panic _ => False
  end.
Proof.
  unfold handleSSHKeys. rewrite bind_run.
  pose proof (handleSSHKeys_range_outcome conf results false t) as H.
  destruct (handleSSHKeys_range quote conf results false t) as [t' [kf|e|msg]];
    cbn [snd] in *; [|done..].
  destruct (negb kf && HasPrefix (Repo conf) "git@"); [|done].
  by rewrite !Printf_bind, Printf_run.
Qed.

Lemma handleEnvs_outcome conf results t :
  match (handleEnvs quote conf results t).2 with
  | Done _ => True
  | Fail e => sink_error conf "copying env: " e
  | Panic msg =>
      msg = "runtime error: index out of range [-1]"
      ∧ Exists (fun r => err r = None ∧ data r = []) results
  end.
Proof.
  revert t. induction results as [|r rest IH]; intros t; [done|].
  assert (Hrest : ∀ t',
    match (handleEnvs quote conf rest t').2 with
    | Done _ => True
    | Fail e => sink_error conf "copying env: " e
    | Panic msg =>
        msg = "runtime error: index out of range [-1]"
        ∧ Exists (fun r => err r = None ∧ data r = []) (r :: rest)
    end).
  { intros t'. specialize (IH t').
    destruct (handleEnvs quote conf rest t').2; [done..|].
    destruct IH. split; [done|]. by apply Exists_cons_tl. }
  cbn [handleEnvs]. destruct (err r) as [e|] eqn:He.
  - rewrite Printf_bind. apply Hrest.
  - destruct (data r) as [|b0 d0] eqn:Hd.
    + rewrite bind_run. unfold ensure_newline. cbn.
      split; [done|]. by apply Exists_cons_hd.
    + destruct (handleEnvs_writes_normalized quote conf r rest t He)
        as (b & _ & Hstep); [by rewrite Hd|].
      cbv zeta in Hstep. cbn [handleEnvs] in Hstep. rewrite He, Hd in Hstep.
      rewrite Hstep.
      destruct (Write (EnvSink conf) _ _) as [e0|] eqn:Hw; [|apply Hrest].
      cbn [snd]. by eexists _, _, e0.
Qed.

Lemma handleGitCredentials_outcome conf results t :
  match (handleGitCredentials quote conf results t).2 with
  | Done _ => True
  | Fail e => sink_error conf "writing GIT_CONFIG_PARAMETERS env: " e
  | Panic _ => False
  end.
Proof.
  rewrite handleGitCredentials_run.
  destruct (descriptors quote conf results) as [|d ds]; [done|]. cbn [snd].
  destruct (Write (EnvSink conf) _ _) as [e0|] eqn:Hw; [|done].
  by eexists _, _, e0.
Qed.

Lemma Run_not_found conf t :
  (BucketExists (client conf) (Bucket conf)).1 = false →
  (Run quote conf t).2
  = Fail (errorString ("bucket " +:+ quote (Bucket conf) +:+ " not found")).
Proof.
  intros Hok. unfold Run. rewrite Printf_bind, bind_run. unfold bucket_exists.
  destruct (BucketExists (client conf) (Bucket conf)) as [ok e].
  simpl in Hok. subst ok. cbn [negb].
  rewrite Printf_bind, bind_run.
  destruct e as [e|]; reflexivity.
Qed.

Lemma handle_all_outcome conf t :
  match (handle_all quote conf t).2 with
  | Done _ => True
  | Fail e =>
      agent_error conf e
      ∨ sink_error conf "copying env: " e
      ∨ sink_error conf "writing GIT_CONFIG_PARAMETERS env: " e
  | Panic msg =>
      msg = "runtime error: index out of range [-1]"
      ∧ Exists (fun r => err r = None ∧ data r = [])
          (GetAll_stream (client conf) (Bucket conf) (keysEnv conf))
  end.
Proof.
  unfold handle_all. rewrite bind_run.
  pose proof (handleSSHKeys_outcome conf
                (GetAll_stream (client conf) (Bucket conf) (keysSSH conf)) t) as H1.
  destruct (handleSSHKeys quote conf _ t) as [t1 [[]|e|msg]]; cbn [snd] in *;
    [|by left|done].
  rewrite bind_run.
  pose proof (handleEnvs_outcome conf
                (GetAll_stream (client conf) (Bucket conf) (keysEnv conf)) t1) as H2.
  destruct (handleEnvs quote conf _ t1) as [t2 [[]|e|msg]]; cbn [snd] in *;
    [|by right; left|done].
  pose proof (handleGitCredentials_outcome conf
                (GetAll_stream (client conf) (Bucket conf) (keysGit conf)) t2) as H3.
  destruct (handleGitCredentials quote conf _ t2) as [t3 [[]|e|msg]]; cbn [snd] in *;
    [done|by right; right|done].
Qed.

(** An error returned by [Run] is one of four: [bucket ... not found],
    when the bucket check answered [false]; or an error the agent returned
    to an [Add], wrapped as [ssh-agent add: ...]; or an error the sink
    returned to a write, wrapped as [copying env: ...] or as
    [writing GIT_CONFIG_PARAMETERS env: ...]. A failed lookup is never the
    error of the run. *)
Theorem Run_error_kinds (conf : Config) (t : trace) (e : error) :
  (Run quote conf t).2 = Fail e →
  ((BucketExists (client conf) (Bucket conf)).1 = false
   ∧ e = errorString ("bucket " +:+ quote (Bucket conf) +:+ " not found"))
  ∨ agent_error conf e
  ∨ sink_error conf "copying env: " e
  ∨ sink_error conf "writing GIT_CONFIG_PARAMETERS env: " e.
Proof.
  intros H. destruct (BucketExists (client conf) (Bucket conf)).1 eqn:Hok.
  - right. rewrite (Run_started quote _ _ Hok) in H.
    pose proof (handle_all_outcome conf (started quote conf t)) as Ho.
    by rewrite H in Ho.
  - left. split; [done|]. rewrite (Run_not_found _ _ Hok) in H. by injection H.
Qed.


End Dispatch.

(** ** More about the chain of goroutines *)

Section ChainMore.

Variable c : Client.
Variable bucket : string.
Variable keys : list string.

Lemma run_app sch1 sch2 s :
  run c bucket keys (sch1 ++ sch2) s
  = match run c bucket keys sch1 s with
    | Some s' => run c bucket keys sch2 s'
    | None => None
    end.
Proof.
  revert s. induction sch1 as [|t sch1 IH]; intros s; [done|].
  cbn [app run]. destruct (step c bucket keys t s); [apply IH|done..].
Qed.

Lemma halted_chain s :
  Inv c bucket keys s → halted c bucket keys s = true →
  chain_inv c bucket keys BMain s ∧ main s = MReturn ∧ gos_left (gos s) = 0.
Proof.
  intros H Hh. pose proof (halted_left _ _ _ _ H Hh) as Hz.
  unfold steps_left in Hz.
  destruct H as [->|[->|[b H]]]; [simpl in Hz; lia..|].
  assert (Hm : main s = MReturn).
  { destruct (main s) as [| |? rest| |]; simpl in Hz; try done; lia. }
  pose proof (inv_main _ _ _ _ _ H) as Hmain. unfold main_ok in Hmain.
  rewrite Hm in Hmain. destruct Hmain as (-> & _ & _).
  split_and!; [done..|lia].
Qed.

(** When no thread of [GetAll] can move any more, nothing is left behind:
    the body has returned, one goroutine per key was started and every one
    of them has exited, and every link channel is closed and empty. *)
Theorem GetAll_leaves_nothing_behind (sch : list tid) (s : system) :
  run c bucket keys sch init = Some s →
  halted c bucket keys s = true →
  main s = MReturn
  ∧ length (gos s) = length keys
  ∧ Forall (fun g => g_pc g = GExit) (gos s)
  ∧ length (chans s) = S (length keys)
  ∧ Forall (fun ch => ch_closed ch = true ∧ ch_buf ch = []) (chans s).
Proof.
  intros Hrun Hh.
  destruct (run_sound c bucket keys sch init s (Inv_init _ _ _) Hrun) as [H _].
  destruct (halted_chain s H Hh) as (Hc & Hm & Hz).
  pose proof (inv_main _ _ _ _ _ Hc) as Hmain. unfold main_ok in Hmain.
  rewrite Hm in Hmain. destruct Hmain as (_ & Hlen & _).
  assert (Hexit : ∀ i g, gos s !! i = Some g → g_pc g = GExit).
  { intros i g Hg. by eapply gos_left_zero. }
  split_and!; try done.
  - apply Forall_lookup. intros i g Hg. by eapply Hexit.
  - rewrite (inv_len _ _ _ _ _ Hc). by rewrite Hlen.
  - apply Forall_lookup. intros i ch Hch. destruct i as [|i].
    + rewrite (inv_ch0 _ _ _ _ _ Hc) in Hch. by injection Hch as <-.
    + destruct (gos s !! i) as [g|] eqn:Hg.
      * rewrite (inv_chs _ _ _ _ _ Hc _ _ Hg), (Hexit _ _ Hg) in Hch.
        by injection Hch as <-.
      * apply lookup_ge_None in Hg. apply lookup_lt_Some in Hch.
        pose proof (inv_len _ _ _ _ _ Hc). lia.
Qed.

Lemma baton_at_le b s :
  chain_inv c bucket keys b s → baton_at keys b ≤ length (gos s).
Proof.
  intros H. pose proof (inv_baton _ _ _ _ _ H) as Hb.
  pose proof (inv_main _ _ _ _ _ H) as Hm. unfold main_ok in Hm.
  destruct b; simpl in *; try lia.
  destruct (main s); intuition (try congruence; try lia).
Qed.

(** Whatever the schedule, a result is delivered only after the [Get] call
    for its key was made: the results delivered so far are results of
    calls in the log of calls. *)
Theorem GetAll_delivers_only_fetched (sch : list tid) (s : system) (r : getResult) :
  run c bucket keys sch init = Some s →
  r ∈ delivered s →
  (bucket, key r) ∈ gets s ∧ r = result_of c bucket (key r).
Proof.
  intros Hrun Hr.
  destruct (run_sound c bucket keys sch init s (Inv_init _ _ _) Hrun) as [H _].
  destruct H as [->|[->|[b H]]]; [by apply elem_of_nil in Hr..|].
  rewrite (inv_out _ _ _ _ _ H) in Hr.
  apply list_elem_of_lookup in Hr as [i Hi].
  pose proof (lookup_lt_Some _ _ _ Hi) as Hlt.
  unfold GetAll_stream in Hlt. rewrite length_map, length_take in Hlt.
  apply Nat.min_glb_lt_iff in Hlt as [Hlt _].
  destruct (lookup_stream _ _ _ _ _ _ Hi) as (k & Hk & ->).
  assert (Hkey : key (result_of c bucket k) = k).
  { unfold result_of. by destruct (Get c bucket k). }
  rewrite Hkey. split; [|done].
  pose proof (baton_at_le _ _ H) as Hle.
  destruct (gos s !! i) as [g|] eqn:Hg.
  2:{ apply lookup_ge_None in Hg. lia. }
  destruct (inv_gos _ _ _ _ _ H _ _ Hg) as (_ & _ & Hgk & Hpc).
  rewrite Hk in Hgk. injection Hgk as ->.
  rewrite (inv_gets _ _ _ _ _ H).
  apply list_elem_of_fmap. exists (g_k g). split; [done|].
  apply list_elem_of_fmap. exists g. split; [done|].
  apply list_elem_of_filter. split; [|by eapply list_elem_of_lookup_2].
  unfold fetched. destruct (g_pc g) eqn:Epc; try done.
  exfalso. simpl in Hpc. destruct b; simpl in *; try done; lia.
Qed.

(** *** Fetches do not wait for the baton *)

Lemma spawn_run rest s link :
  main s = MRange link rest →
  ∃ s' gs link',
    run c bucket keys (replicate (length rest) Main) s = Some s'
    ∧ main s' = MRange link' []
    ∧ gos s' = gos s ++ gs
    ∧ g_k <$> gs = rest
    ∧ Forall (fun g => g_pc g = GGet) gs
    ∧ delivered s' = delivered s ∧ gets s' = gets s.
Proof.
  revert s link. induction rest as [|k rest IH]; intros s link Hm.
  - exists s, [], link. rewrite app_nil_r. split_and!; done.
  - cbn [length replicate run step]. unfold step_main. rewrite Hm.
    edestruct (IH (mkSys (MRange (length (chans s)) rest)
                     (gos s ++ [mkGo k link (length (chans s)) GGet])
                     (chans s ++ [mkChan 0 [] false])
                     (delivered s) (closed s) (gets s)))
      as (s' & gs & link' & Hrun & Hm' & Hgos & Hks & Hpcs & Hd & Hg); [done|].
    exists s', (mkGo k link (length (chans s)) GGet :: gs), link'.
    split_and!; try done.
    + rewrite Hgos. simpl. by rewrite <- app_assoc.
    + rewrite fmap_cons. by rewrite Hks.
    + by constructor.
Qed.

Lemma fetch_run order s :
  NoDup order →
  (∀ i, i ∈ order → ∃ g, gos s !! i = Some g ∧ g_pc g = GGet) →
  ∃ s' ps,
    run c bucket keys (Go <$> order) s = Some s'
    ∧ delivered s' = delivered s
    ∧ gets s' = gets s ++ ps
    ∧ Forall2 (fun i p => ∃ k, (g_k <$> gos s) !! i = Some k ∧ p = (bucket, k)) order ps.
Proof.
  intros Hnd. revert s. induction Hnd as [|i order Hni Hnd IH]; intros s Hget.
  - exists s, []. rewrite app_nil_r. split_and!; done.
  - destruct (Hget i) as (g & Hg & Hpc); [by left|].
    rewrite fmap_cons. cbn [run step]. unfold step_go. rewrite Hg, Hpc.
    destruct (Get c bucket (g_k g)) as [d e].
    set (s1 := mkSys (main s) (<[i := set_pc (GRecv d e) g]> (gos s)) (chans s)
                 (delivered s) (closed s) (gets s ++ [(bucket, g_k g)])).
    assert (Hkeys : g_k <$> gos s1 = g_k <$> gos s).
    { subst s1. cbn [gos]. rewrite list_fmap_insert. apply list_insert_id.
      by rewrite list_lookup_fmap, Hg. }
    destruct (IH s1) as (s' & ps & Hrun & Hd & Hgs & Hps).
    { intros j Hj. destruct (Hget j) as (g' & Hg' & Hpc'); [by right|].
      exists g'. split; [|done]. subst s1. cbn [gos].
      rewrite list_lookup_insert_ne; [done|]. intros ->. done. }
    exists s', ((bucket, g_k g) :: ps). split_and!; try done.
    + rewrite Hgs. subst s1. cbn [gets]. by rewrite <- app_assoc.
    + constructor.
      * exists (g_k g). split; [|done]. by rewrite list_lookup_fmap, Hg.
      * by rewrite Hkeys in Hps.
Qed.

(** The fetches are not ordered by the chain: once the goroutines are
    started, the [Get] calls of any keys can be made in any order, all of
    them if one likes, before a single result has been delivered. For
    every duplicate-free list [order] of key positions there is a run that
    makes exactly the calls for [order], in the order of [order], and has delivered
    nothing yet. *)
Theorem GetAll_fetches_in_any_order (order : list nat) :
  NoDup order → (∀ i, i ∈ order → i < length keys) →
  ∃ s, run c bucket keys
         ([Main; Main] ++ replicate (length keys) Main ++ (Go <$> order)) init = Some s
       ∧ delivered s = []
       ∧ Forall2 (fun i p => ∃ k, keys !! i = Some k ∧ p = (bucket, k)) order (gets s).
Proof.
  intros Hnd Hlt.
  destruct (spawn_run keys
              (mkSys (MRange 0 keys) [] [mkChan 1 [ResultsChan] true] [] false []) 0)
    as (s3 & gs & link' & Hrun3 & Hm3 & Hgos3 & Hks & Hpcs & Hd3 & Hg3); [done|].
  cbn [gos app] in Hgos3. cbn [delivered] in Hd3. cbn [gets] in Hg3.
  destruct (fetch_run order s3 Hnd) as (s & ps & Hrun & Hd & Hgs & Hps).
  { intros i Hi. specialize (Hlt i Hi).
    assert (Hlen : length gs = length keys) by (by rewrite <- Hks, length_fmap).
    destruct (lookup_lt_is_Some_2 gs i) as [g Hg]; [lia|].
    exists g. rewrite Hgos3. split; [done|].
    rewrite Forall_lookup in Hpcs. by eapply Hpcs. }
  exists s. split_and!.
  - rewrite run_app. change (run c bucket keys [Main; Main] init)
      with (Some (mkSys (MRange 0 keys) [] [mkChan 1 [ResultsChan] true] [] false [])).
    cbv beta iota. by rewrite run_app, Hrun3.
  - by rewrite Hd, Hd3.
  - rewrite Hgs, Hg3. cbn [app]. by rewrite Hgos3, Hks in Hps.
Qed.

End ChainMore.

(** ** More worked examples *)

(** Two SSH keys, two environment files (the first without a final
    newline) and one git-credentials object are found. *)
Definition full_client : Client :=
  {| Get := fun _ k =>
       if String.eqb k "pipe/private_ssh_key" then ([x6b; x31], None)
       else if String.eqb k "id_rsa_github" then ([x6b; x32], None)
       else if String.eqb k "env" then ([x41; x3d; x31], None)
       else if String.eqb k "pipe/environment" then ([x42; x3d; x32; x0a], None)
       else if String.eqb k "git-credentials" then ([x63], None)
       else ([], Some NotFound);
     BucketExists := fun _ => (true, None) |}.

Definition full_conf : Config :=
  demo_conf "git@github.com:org/repo.git" "bkt" full_client ok_agent.

(** A sink that refuses every write. *)
Definition refusing_sink : Writer :=
  {| Write := fun _ _ => Some (errorString "disk full") |}.

Definition unwritable_conf : Config :=
  {| Repo := "https://github.com/org/repo.git"; Bucket := "bkt"; Prefix := "pipe";
     client := full_client; SSHAgent := ok_agent; EnvSink := refusing_sink;
     GitCredentialHelper := "/usr/bin/git-credential-s3-secrets" |}.



Lemma handleSSHKeys_adds_every_key_witness :
  adds (handleSSHKeys quote_plain full_conf
          (GetAll_stream full_client "bkt" (keysSSH full_conf)) []).1
  = [[x6b; x31]; [x6b; x32]].
Proof.
  destruct (handleSSHKeys_adds_every_key quote_plain full_conf
              (GetAll_stream full_client "bkt" (keysSSH full_conf)) []
              (fun _ _ => eq_refl)) as [_ H].
  rewrite H. reflexivity.
Defined.


(** A sink with room for seven bytes: it takes what fits and answers
    [disk full] to a write that does not. *)
Definition small_sink : Writer :=
  {| Write := fun t p =>
       if length (mjoin (writes t)) + length p <=? 7 then None
       else Some (errorString "disk full") |}.

Definition small_conf : Config :=
  {| Repo := "https://github.com/org/repo.git"; Bucket := "bkt"; Prefix := "pipe";
     client := full_client; SSHAgent := ok_agent; EnvSink := small_sink;
     GitCredentialHelper := "/usr/bin/git-credential-s3-secrets" |}.

(** [A=1] is written with its newline (four bytes); [B=22], five bytes
    with its newline, no longer fits; [C=3] is not looked at. *)
Lemma handleEnvs_write_error_fatal_witness :
  ∃ p, newline_ended [x42; x3d; x32; x32] p
       ∧ handleEnvs quote_plain small_conf
           ([mkResult "bkt" "env" [x41; x3d; x31] None]
              ++ mkResult "bkt" "environment" [x42; x3d; x32; x32] None
              :: [mkResult "bkt" "pipe/env" [x43; x3d; x33] None]) []
         = ([ env_loading quote_plain (mkResult "bkt" "env" [x41; x3d; x31] None);
              EvWrite [x41; x3d; x31; x0a] ]
              ++ [ env_loading quote_plain
                     (mkResult "bkt" "environment" [x42; x3d; x32; x32] None);
                   EvWrite p ],
            Fail (wrapError ("copying env: " +:+ Error (errorString "disk full"))
                    (errorString "disk full"))).
Proof.
  apply (handleEnvs_write_error_fatal quote_plain small_conf
           [mkResult "bkt" "env" [x41; x3d; x31] None]
           (mkResult "bkt" "environment" [x42; x3d; x32; x32] None)
           [mkResult "bkt" "pipe/env" [x43; x3d; x33] None] []
           [ env_loading quote_plain (mkResult "bkt" "env" [x41; x3d; x31] None);
             EvWrite [x41; x3d; x31; x0a] ]
           (errorString "disk full")).
  - reflexivity.
  - reflexivity.
  - discriminate.
  - intros p Hp. inversion Hp as [Hl|b Hl Hb]; [discriminate|reflexivity].
Defined.


Lemma Run_error_kinds_witness :
  ((BucketExists (client unwritable_conf) (Bucket unwritable_conf)).1 = false
   ∧ wrapError "copying env: disk full" (errorString "disk full")
     = errorString ("bucket " +:+ quote_plain (Bucket unwritable_conf) +:+ " not found"))
  ∨ agent_error unwritable_conf
      (wrapError "copying env: disk full" (errorString "disk full"))
  ∨ sink_error unwritable_conf "copying env: "
      (wrapError "copying env: disk full" (errorString "disk full"))
  ∨ sink_error unwritable_conf "writing GIT_CONFIG_PARAMETERS env: "
      (wrapError "copying env: disk full" (errorString "disk full")).
Proof.
  exact (Run_error_kinds quote_plain unwritable_conf []
           (wrapError "copying env: disk full" (errorString "disk full")) eq_refl).
Defined.


Lemma GetAll_leaves_nothing_behind_witness :
  main demo_final = MReturn
  ∧ length (gos demo_final) = length demo_keys
  ∧ Forall (fun g => g_pc g = GExit) (gos demo_final)
  ∧ length (chans demo_final) = S (length demo_keys)
  ∧ Forall (fun ch => ch_closed ch = true ∧ ch_buf ch = []) (chans demo_final).
Proof.
  exact (GetAll_leaves_nothing_behind demo_client "bkt" demo_keys demo_schedule
           demo_final eq_refl eq_refl).
Defined.

(** The demo schedule stopped after [a] was delivered: [b] and [c] have
    been fetched but not delivered. *)
Definition demo_partial : system :=
  Eval vm_compute in
    match run demo_client "bkt" demo_keys (take 10 demo_schedule) init with
    | Some s => s
    | None => init
    end.

Lemma GetAll_delivers_only_fetched_witness :
  ("bkt", "a") ∈ gets demo_partial
  ∧ mkResult "bkt" "a" [] (Some NotFound) = result_of demo_client "bkt" "a".
Proof.
  apply (GetAll_delivers_only_fetched demo_client "bkt" demo_keys
           (take 10 demo_schedule) demo_partial
           (mkResult "bkt" "a" [] (Some NotFound))).
  - reflexivity.
  - simpl. apply list_elem_of_here.
Defined.

Lemma GetAll_fetches_in_any_order_witness :
  ∃ s, run demo_client "bkt" demo_keys
         ([Main; Main] ++ replicate (length demo_keys) Main ++ (Go <$> [2; 0; 1]))
         init = Some s
       ∧ delivered s = []
       ∧ Forall2 (fun i p => ∃ k, demo_keys !! i = Some k ∧ p = ("bkt", k))
           [2; 0; 1] (gets s).
Proof.
  apply (GetAll_fetches_in_any_order demo_client "bkt" demo_keys [2; 0; 1]).
  - apply (bool_decide_unpack (NoDup [2; 0; 1])). vm_compute. exact I.
  - intros i Hi. apply (proj1 (Forall_forall (fun i => i < length demo_keys) [2; 0; 1]));
      [|exact Hi]. simpl. repeat constructor.
Defined.

(** ** A bucket that holds none of the secrets *)

Section NothingFound.

Variable quote : string -> string.

Lemma stream_all_failed (c : Client) (b : string) (ks : list string) :
  (∀ k, k ∈ ks → (Get c b k).2 ≠ None) →
  Forall (fun r => err r ≠ None) (GetAll_stream c b ks).
Proof.
  intros H. unfold GetAll_stream. apply Forall_forall. intros r Hr.
  apply list_elem_of_In, in_map_iff in Hr as (k & <- & Hk).
  apply list_elem_of_In in Hk.
  unfold result_of. specialize (H k Hk). by destruct (Get c b k).
Qed.

Lemma successes_all_failed results :
  Forall (fun r => err r ≠ None) results → successes results = [].
Proof.
  induction 1 as [|r rest Hr _ IH]; [done|].
  destruct (err r) as [e|] eqn:He; [|done].
  by rewrite (successes_cons_failed _ _ _ He).
Qed.

Lemma handleSSHKeys_all_failed conf results t :
  Forall (fun r => err r ≠ None) results →
  ∃ evs, handleSSHKeys quote conf results t = (t ++ evs, Done tt)
         ∧ adds evs = [] ∧ writes evs = [].
Proof.
  intros H. unfold handleSSHKeys.
  rewrite bind_run, (handleSSHKeys_range_failures quote _ _ _ _ H). cbn [negb andb].
  assert (Hw : adds (ssh_warnings quote results) = []
               ∧ writes (ssh_warnings quote results) = []).
  { clear t. induction H as [|r rest Hr _ IH]; [done|].
    destruct (err r) as [e|] eqn:He; [|done].
    rewrite (ssh_warnings_cons quote _ _ _ He). cbn. apply IH. }
  destruct Hw as [Ha Hw].
  destruct (HasPrefix (Repo conf) "git@").
  - rewrite !Printf_bind, Printf_run, <- !app_assoc. eexists. split; [reflexivity|].
    rewrite adds_app, writes_app, Ha, Hw. done.
  - by exists (ssh_warnings quote results).
Qed.

Lemma handleEnvs_all_failed conf results t :
  Forall (fun r => err r ≠ None) results →
  ∃ evs, handleEnvs quote conf results t = (t ++ evs, Done tt)
         ∧ adds evs = [] ∧ writes evs = [].
Proof.
  intros H. revert t. induction H as [|r rest Hr _ IH]; intros t.
  - exists []. by rewrite app_nil_r.
  - destruct (err r) as [e|] eqn:He; [|done].
    destruct (IH (t ++ [EvLog (Sprintf quote
                  "+++ :warning: Failed to download env from %s/%s: %v"
                  [Str (bucket r); Str (key r); Errv e])])) as (evs & Heq & Ha & Hw).
    eexists (_ :: evs). split.
    + cbn [handleEnvs]. rewrite He, Printf_bind, Heq, <- app_assoc. reflexivity.
    + by split.
Qed.

Lemma handleGitCredentials_all_failed conf results t :
  Forall (fun r => err r ≠ None) results →
  handleGitCredentials quote conf results t = (t, Done tt).
Proof.
  intros H. rewrite handleGitCredentials_run. unfold descriptors.
  fold (successes results). rewrite (successes_all_failed _ H). cbn [fmap list_fmap].
  assert (Hl : git_logs quote results = []).
  { induction H as [|r rest Hr _ IH]; [done|].
    unfold git_logs. cbn [omap list_omap]. by destruct (err r). }
  by rewrite Hl, app_nil_r.
Qed.

(** When the bucket exists but the lookup of each of the ten keys fails
    (none of them is there, or none may be read; the bucket may hold any
    other object), [Run] still succeeds, whatever the agent and the sink
    would answer: the agent is given nothing and nothing is written to the
    sink. *)
Theorem Run_nothing_found (conf : Config) (t : trace) :
  (BucketExists (client conf) (Bucket conf)).1 = true →
  (∀ k, k ∈ keysSSH conf ++ keysEnv conf ++ keysGit conf →
        (Get (client conf) (Bucket conf) k).2 ≠ None) →
  (Run quote conf t).2 = Done tt
  ∧ adds (Run quote conf t).1 = adds t
  ∧ writes (Run quote conf t).1 = writes t.
Proof.
  intros Hok Hget. rewrite (Run_started quote _ _ Hok). unfold handle_all.
  assert (Hssh : ∀ k, k ∈ keysSSH conf → (Get (client conf) (Bucket conf) k).2 ≠ None).
  { intros k Hk. apply Hget. apply elem_of_app. by left. }
  assert (Henv : ∀ k, k ∈ keysEnv conf → (Get (client conf) (Bucket conf) k).2 ≠ None).
  { intros k Hk. apply Hget. apply elem_of_app. right. apply elem_of_app. by left. }
  assert (Hgit : ∀ k, k ∈ keysGit conf → (Get (client conf) (Bucket conf) k).2 ≠ None).
  { intros k Hk. apply Hget. apply elem_of_app. right. apply elem_of_app. by right. }
  destruct (started_events quote conf t) as (ev0 & -> & Hw0 & Ha0 & _).
  destruct (handleSSHKeys_all_failed conf _ (t ++ ev0)
              (stream_all_failed _ _ (keysSSH conf) Hssh)) as (ev1 & He1 & Ha1 & Hw1).
  destruct (handleEnvs_all_failed conf _ ((t ++ ev0) ++ ev1)
              (stream_all_failed _ _ (keysEnv conf) Henv)) as (ev2 & He2 & Ha2 & Hw2).
  rewrite bind_run, He1, bind_run, He2.
  rewrite (handleGitCredentials_all_failed conf _ _
             (stream_all_failed _ _ (keysGit conf) Hgit)).
  cbn [fst snd]. rewrite !adds_app, !writes_app.
  by rewrite Ha0, Ha1, Ha2, Hw0, Hw1, Hw2, !app_nil_r.
Qed.

End NothingFound.

(** The bucket holds objects, but none under the ten keys, and neither
    the agent nor the sink would accept anything. *)
Definition other_client : Client :=
  {| Get := fun _ k =>
       if String.eqb k "README" then ([x68; x69], None)
       else if String.eqb k "pipe/notes" then ([x0a], None)
       else ([], Some NotFound);
     BucketExists := fun _ => (true, None) |}.

Definition barren_conf : Config :=
  {| Repo := "git@github.com:org/repo.git"; Bucket := "bkt"; Prefix := "pipe";
     client := other_client; SSHAgent := refusing_agent;
     EnvSink := refusing_sink;
     GitCredentialHelper := "/usr/bin/git-credential-s3-secrets" |}.

Lemma Run_nothing_found_witness :
  (Run quote_plain barren_conf []).2 = Done tt
  ∧ adds (Run quote_plain barren_conf []).1 = adds []
  ∧ writes (Run quote_plain barren_conf []).1 = writes [].
Proof.
  apply (Run_nothing_found quote_plain barren_conf []).
  - reflexivity.
  - apply (proj1 (Forall_forall
             (fun k => (Get (client barren_conf) (Bucket barren_conf) k).2 ≠ None)
             (keysSSH barren_conf ++ keysEnv barren_conf ++ keysGit barren_conf))).
    simpl. repeat constructor; discriminate.
Defined.
